(** * Beggar-my-neighbour simulator: a shallow embedding and its properties

    The repository holds three variants of the same card-game simulator:

    - [test-suite.cpp]: single-deck replay; [game::play] returns
      (winner, cards_played_total, tricks, cycled);
    - [main-imp.cpp]: the batch search; [game::play] returns
      (winner, cards_played_total, tricks, deck) and [main] aggregates a
      high score over many runs;
    - the first, simplest variant (no cycle detection), module [Simple].

    C++ [int] values are modelled as [Z].  Signed overflow is undefined in
    C++, so no wrap-around is written out; lemma [play_loop_counters] shows
    that the counters of a run stay between 0 and the move limit.
    [std::vector<int>] is [list Z], [std::string] is [string], and the
    [std::unordered_set] of visited hand pairs is a [gset]: the container
    compares keys with [operator==] on the pair of vectors, the hash only
    picks the bucket. *)

From Stdlib Require Import ZArith List String Ascii Lia Permutation Sorted Bool.
From stdpp Require Import base list gmap.
Import ListNotations.

Local Open Scope Z_scope.

(** ** Deck *)

Module Deck.

(** [static constexpr int size = 52] *)
Definition size : Z := 52.

Record deck : Type := mk_deck { cards : list Z }.

(** [deck() : cards(size, 0)] *)
Definition empty_deck : deck := mk_deck (replicate (Z.to_nat size) 0).

(** The [switch] of [from_string]. *)
Definition rank_of_char (c : ascii) : Z :=
  if Ascii.eqb c "J" then 1
  else if Ascii.eqb c "Q" then 2
  else if Ascii.eqb c "K" then 3
  else if Ascii.eqb c "A" then 4
  else 0.

(** The [switch] of [operator<<]. *)
Definition char_of_rank (i : Z) : ascii :=
  if i =? 1 then "J"%char
  else if i =? 2 then "Q"%char
  else if i =? 3 then "K"%char
  else if i =? 4 then "A"%char
  else "-"%char.

(** One iteration of the loop of [from_string]: [d.cards[i] = ...]. *)
Definition from_string_step (str : string) (cs : list Z) (i : nat) : list Z :=
  match String.get i str with
  | Some c => <[i := rank_of_char c]> cs
  | None => cs
  end.

(** [deck::from_string]: all slots start at 0, then
    [for (i = 0; i < min(str.size(), d.cards.size()); ++i)]. *)
Definition from_string (str : string) : deck :=
  let init := replicate (Z.to_nat size) 0 in
  let bound := Nat.min (String.length str) (length init) in
  mk_deck (fold_left (from_string_step str) (seq 0 bound) init).

(** [operator<<(ostream&, const deck&)]: one character per card. *)
Definition to_string (d : deck) : string :=
  string_of_list_ascii (map char_of_rank (cards d)).

(** First loop of [is_valid]: [None] stands for the early [return false]
    on a card outside 0..4, otherwise [counts[card]++]. *)
Fixpoint count_cards (cs : list Z) (counts : list Z) : option (list Z) :=
  match cs with
  | [] => Some counts
  | card :: cs' =>
      if (card <? 0) || (4 <? card) then None
      else count_cards cs' (alter Z.succ (Z.to_nat card) counts)
  end.

(** [deck::is_valid] (test-suite.cpp). *)
Definition is_valid (d : deck) : bool :=
  match count_cards (cards d) (replicate 5 0) with
  | None => false
  | Some counts =>
      if forallb (fun i => bool_decide (counts !! i = Some 4)) [1; 2; 3; 4]%nat
      then Z.of_nat (length (cards d)) =? size
      else false
  end.

(** The [do { pos = dist(rng); } while (cards[pos] != 0)] loop of
    [shuffle].  The generator is the list of its future draws; the first
    draw that hits a slot holding 0 is the position, the draws after it are
    left for later.  [None]: the draws ran out before an empty slot was hit
    (the C++ loop would still be drawing), or a draw lies outside the
    vector, which [uniform_int_distribution<>(0, size - 1)] never yields. *)
Fixpoint pick_empty (cs : list Z) (draws : list nat) : option (nat * list nat) :=
  match draws with
  | [] => None
  | pos :: draws' =>
      match cs !! pos with
      | Some c => if c =? 0 then Some (pos, draws') else pick_empty cs draws'
      | None => None
      end
  end.

(** One round of the inner loop: draw a position, [cards[pos] = card]. *)
Definition place (card : Z) (st : list Z * list nat) : option (list Z * list nat) :=
  match pick_empty (fst st) (snd st) with
  | Some (pos, draws') => Some (<[pos := card]> (fst st), draws')
  | None => None
  end.

(** [for (int iter = 0; iter < 4; ++iter)] *)
Fixpoint place_n (n : nat) (card : Z) (st : list Z * list nat) :
    option (list Z * list nat) :=
  match n with
  | O => Some st
  | S n' =>
      match place card st with
      | Some st' => place_n n' card st'
      | None => None
      end
  end.

(** [deck::shuffle]: [std::fill] with 0, then four cards of each of the
    ranks 1..4.  Returns the deck and the draws not used.  The first
    variant's [shuffle] is the same loop over [rand() % size]. *)
Definition shuffle (draws : list nat) : option (deck * list nat) :=
  match
    fold_left
      (fun acc card =>
         match acc with Some st => place_n 4 card st | None => None end)
      [1; 2; 3; 4]
      (Some (replicate (Z.to_nat size) 0, draws))
  with
  | Some (cs, draws') => Some (mk_deck cs, draws')
  | None => None
  end.

End Deck.

Import Deck.

(** ** Game state shared by test-suite.cpp and main-imp.cpp *)

Record player : Type := mk_player { id : Z; hand : list Z }.

(** [player* active_player] only ever holds [&p1] or [&p2]. *)
Inductive player_ref : Type := ref_p1 | ref_p2.

Abbreviation hand_pair := (list Z * list Z)%type.

Record game : Type := mk_game {
  d : deck;
  p1 : player;
  p2 : player;
  cards_played_total : Z;
  tricks : Z;
  pile : list Z;
  remaining_penalties : Z;
  face_card_active : bool;
  active_player : player_ref;
  max_moves : Z;
  seen_states : gset hand_pair
}.

Definition set_hand (p : player) (cs : list Z) : player := mk_player (id p) cs.

Definition set_p1 (g : game) (p : player) : game :=
  mk_game (d g) p (p2 g) (cards_played_total g) (tricks g) (pile g)
    (remaining_penalties g) (face_card_active g) (active_player g)
    (max_moves g) (seen_states g).

Definition set_p2 (g : game) (p : player) : game :=
  mk_game (d g) (p1 g) p (cards_played_total g) (tricks g) (pile g)
    (remaining_penalties g) (face_card_active g) (active_player g)
    (max_moves g) (seen_states g).

Definition set_cards_played_total (g : game) (n : Z) : game :=
  mk_game (d g) (p1 g) (p2 g) n (tricks g) (pile g)
    (remaining_penalties g) (face_card_active g) (active_player g)
    (max_moves g) (seen_states g).

Definition set_tricks (g : game) (n : Z) : game :=
  mk_game (d g) (p1 g) (p2 g) (cards_played_total g) n (pile g)
    (remaining_penalties g) (face_card_active g) (active_player g)
    (max_moves g) (seen_states g).

Definition set_pile (g : game) (cs : list Z) : game :=
  mk_game (d g) (p1 g) (p2 g) (cards_played_total g) (tricks g) cs
    (remaining_penalties g) (face_card_active g) (active_player g)
    (max_moves g) (seen_states g).

Definition set_remaining_penalties (g : game) (n : Z) : game :=
  mk_game (d g) (p1 g) (p2 g) (cards_played_total g) (tricks g) (pile g)
    n (face_card_active g) (active_player g)
    (max_moves g) (seen_states g).

Definition set_face_card_active (g : game) (b : bool) : game :=
  mk_game (d g) (p1 g) (p2 g) (cards_played_total g) (tricks g) (pile g)
    (remaining_penalties g) b (active_player g)
    (max_moves g) (seen_states g).

Definition set_active_player (g : game) (r : player_ref) : game :=
  mk_game (d g) (p1 g) (p2 g) (cards_played_total g) (tricks g) (pile g)
    (remaining_penalties g) (face_card_active g) r
    (max_moves g) (seen_states g).

Definition set_seen_states (g : game) (s : gset hand_pair) : game :=
  mk_game (d g) (p1 g) (p2 g) (cards_played_total g) (tricks g) (pile g)
    (remaining_penalties g) (face_card_active g) (active_player g)
    (max_moves g) s.

(** [*active_player] *)
Definition active (g : game) : player :=
  match active_player g with ref_p1 => p1 g | ref_p2 => p2 g end.

(** The player [active_player] does not point to. *)
Definition waiting (g : game) : player :=
  match active_player g with ref_p1 => p2 g | ref_p2 => p1 g end.

(** Assignment to [active_player->cards]. *)
Definition set_active_hand (g : game) (cs : list Z) : game :=
  match active_player g with
  | ref_p1 => set_p1 g (set_hand (p1 g) cs)
  | ref_p2 => set_p2 g (set_hand (p2 g) cs)
  end.

(** [game::switch_player] *)
Definition switch_player (g : game) : game :=
  set_active_player g
    (match active_player g with ref_p1 => ref_p2 | ref_p2 => ref_p1 end).

(** [game::is_game_over] *)
Definition is_game_over (g : game) : bool :=
  bool_decide (hand (p1 g) = []) || bool_decide (hand (p2 g) = []).

(** [game::split_cards]: [mid = d.cards.size() / 2]. *)
Definition split_cards (g : game) : game :=
  let mid := (length (cards (d g)) / 2)%nat in
  set_p2 (set_p1 g (set_hand (p1 g) (take mid (cards (d g)))))
         (set_hand (p2 g) (drop mid (cards (d g)))).

(** [game::start] of test-suite.cpp.  In main-imp.cpp the same body is
    preceded by [d.shuffle(rng)]; there the deck of the game record stands
    for the shuffled deck. *)
Definition start (g : game) : game :=
  let g := split_cards g in
  let g := set_active_player g ref_p1 in
  let g := set_cards_played_total g 0 in
  let g := set_tricks g 0 in
  let g := set_pile g [] in
  let g := set_remaining_penalties g 0 in
  let g := set_face_card_active g false in
  set_seen_states g ∅.

(** The constructor [game(initial_deck, move_limit, verbose)]; the members
    initialised in the class body get their default values.  The pointer
    [active_player] is not initialised before [start]; [ref_p1] is a
    placeholder that [start] overwrites. *)
Definition new_game (initial_deck : deck) (move_limit : Z) : game :=
  mk_game initial_deck (mk_player 1 []) (mk_player 2 []) 0 0 [] 0 false
    ref_p1 move_limit ∅.

(** [game::turn], the same statements in test-suite.cpp and main-imp.cpp
    (the former also prints when [verbose] is set). *)
Definition turn (g : game) : game :=
  match hand (active g) with
  | [] => g
  | card :: rest =>
      let g := set_active_hand g rest in
      let g := set_pile g (pile g ++ [card]) in
      let g := set_cards_played_total g (cards_played_total g + 1) in
      if 0 <? card then
        let g := set_face_card_active g true in
        let g := set_remaining_penalties g card in
        switch_player g
      else if face_card_active g then
        let g := set_remaining_penalties g (remaining_penalties g - 1) in
        if remaining_penalties g =? 0 then
          let g := set_tricks g (tricks g + 1) in
          let g := set_face_card_active g false in
          let g := set_active_hand g (hand (active g) ++ pile g) in
          set_pile g []
        else switch_player g
      else switch_player g
  end.

(** [auto state = std::make_pair(p1.cards, p2.cards)] *)
Definition state_of (g : game) : hand_pair := (hand (p1 g), hand (p2 g)).

(** [seen_states.insert(state)] *)
Definition record_state (g : game) : game :=
  set_seen_states g ({[ state_of g ]} ∪ seen_states g).

(** The loop condition of [play]. *)
Definition keep_playing (g : game) : bool :=
  negb (is_game_over g) && (cards_played_total g <? max_moves g).

(** How the [while] loop of [play] was left. *)
Inductive loop_exit : Type := exit_condition | exit_cycle.

(** The [while] loop of [play].  The recursion is on a bound for the number
    of iterations; [None] is returned when the bound is too small. *)
Fixpoint play_loop (fuel : nat) (g : game) : option (game * loop_exit) :=
  if keep_playing g then
    match fuel with
    | O => None
    | S fuel' =>
        if bool_decide (state_of g ∈ seen_states g) then Some (g, exit_cycle)
        else play_loop fuel' (turn (record_state g))
    end
  else Some (g, exit_condition).

(** Every iteration plays one card, so this many iterations suffice
    ([play_loop_returns]). *)
Definition play_fuel (g : game) : nat :=
  Z.to_nat (max_moves g - cards_played_total g).

(** ** test-suite.cpp: the single-deck replay *)

Module TestSuite.

(** [std::tuple<int, int, int, bool>] *)
Record result : Type := mk_result {
  winner : Z;
  moves_played : Z;
  tricks_won : Z;
  cycled : bool
}.

(** The statements of [play] after the loop. *)
Definition report (g : game) (e : loop_exit) : result :=
  let cycled := match e with exit_cycle => true | exit_condition => false end in
  let winner :=
    if is_game_over g
    then (if bool_decide (hand (p1 g) = []) then 2 else 1)
    else -1 in
  mk_result winner (cards_played_total g) (tricks g) cycled.

(** [game::play]: the game after the call and the returned tuple. *)
Definition play (g : game) : option (game * result) :=
  match play_loop (play_fuel g) g with
  | Some (g', e) => Some (g', report g' e)
  | None => None
  end.

(** The run of [main]: construct, [start], [play]. *)
Definition run (initial_deck : deck) (move_limit : Z) : option (game * result) :=
  play (start (new_game initial_deck move_limit)).

(** The three-way report of [main]. *)
Inductive outcome : Type := cycle_detected | player_won | limit_reached.

Definition classify (r : result) : outcome :=
  if cycled r then cycle_detected
  else if 0 <? winner r then player_won
  else limit_reached.

(** What [main] does with [argv[1]]: the error exit on an invalid deck, or
    the category and the tuple it prints. *)
Inductive main_report : Type :=
  | invalid_deck
  | game_results (o : outcome) (r : result).

(** [main] for [argc >= 2]: parse, validate, run with the limit 1000000. *)
Definition main (deck_str : string) : option main_report :=
  let test_deck := from_string deck_str in
  if negb (is_valid test_deck) then Some invalid_deck
  else
    match run test_deck 1000000 with
    | Some (_, r) => Some (game_results (classify r) r)
    | None => None
    end.

End TestSuite.

(** ** main-imp.cpp: the batch search *)

Module MainImp.

(** [int max_moves = 10000] *)
Definition default_max_moves : Z := 10000.

(** [game() : p1(1), p2(2), rng(...)] with the default member values. *)
Definition new_game : game :=
  mk_game empty_deck (mk_player 1 []) (mk_player 2 []) 0 0 [] 0 false
    ref_p1 default_max_moves ∅.

(** [game::start]: [d.shuffle(rng)], then the body shared with
    test-suite.cpp.  The outcome of the shuffle is the argument. *)
Definition start (shuffled : deck) (g : game) : game :=
  start (mk_game shuffled (p1 g) (p2 g) (cards_played_total g) (tricks g)
           (pile g) (remaining_penalties g) (face_card_active g)
           (active_player g) (max_moves g) (seen_states g)).

(** [std::tuple<int, int, int, deck>] *)
Record result : Type := mk_result {
  winner : Z;
  cards_played : Z;
  tricks_won : Z;
  game_deck : deck
}.

(** The two [return] statements of [play]. *)
Definition report (g : game) (e : loop_exit) : result :=
  match e with
  | exit_cycle => mk_result (-1) (cards_played_total g) (tricks g) (d g)
  | exit_condition =>
      mk_result (id (active g)) (cards_played_total g) (tricks g) (d g)
  end.

(** [game::play]: the game after the call and the returned tuple. *)
Definition play (g : game) : option (game * result) :=
  match play_loop (play_fuel g) g with
  | Some (g', e) => Some (g', report g' e)
  | None => None
  end.

(** [run_game_simulation] *)
Definition run_game_simulation (shuffled : deck) : option (game * result) :=
  play (start shuffled new_game).

(** One line of high_score.txt: [high_score,tricks,winner,game_deck]. *)
Record log_line : Type := mk_log_line {
  line_score : Z;
  line_tricks : Z;
  line_winner : Z;
  line_deck : string
}.

(** The variables of [main] that the collecting loop changes; [file] holds
    the lines appended by this run. *)
Record harness : Type := mk_harness {
  high_score : Z;
  games_completed : Z;
  file : list log_line
}.

(** [int high_score = 0; int games_completed = 0;] *)
Definition harness_init : harness := mk_harness 0 0 [].

(** The test guarding the update of [high_score]. *)
Definition improves (h : harness) (r : result) : bool :=
  (0 <? winner r) && (high_score h <? cards_played r).

(** Body of the collecting loop for a result whose [get()] returned. *)
Definition collect (h : harness) (r : result) : harness :=
  let h := mk_harness (high_score h) (games_completed h + 1) (file h) in
  if improves h r then
    mk_harness (cards_played r) (games_completed h)
      (file h ++ [mk_log_line (cards_played r) (tricks_won r) (winner r)
                    (to_string (game_deck r))])
  else h.

(** [for (auto& result : results)] *)
Definition collect_all (rs : list result) : harness :=
  fold_left collect rs harness_init.

End MainImp.

(** ** The first variant (no cycle detection, no move limit) *)

Module Simple.

Record player : Type := mk_player {
  id : Z;
  cards : list Z;
  played_moves : Z
}.

Record game : Type := mk_game {
  d : deck;
  p1 : player;
  p2 : player;
  game_over : bool;
  tricks : Z;
  cards_played_total : Z;
  face_card_active : bool;
  remaining_turns_for_trick : Z;
  cards_played : list Z;
  active_player : player_ref
}.

Definition set_cards (p : player) (cs : list Z) : player :=
  mk_player (id p) cs (played_moves p).

Definition active (g : game) : player :=
  match active_player g with ref_p1 => p1 g | ref_p2 => p2 g end.

Definition set_active_cards (g : game) (cs : list Z) : game :=
  match active_player g with
  | ref_p1 =>
      mk_game (d g) (set_cards (p1 g) cs) (p2 g) (game_over g) (tricks g)
        (cards_played_total g) (face_card_active g)
        (remaining_turns_for_trick g) (cards_played g) (active_player g)
  | ref_p2 =>
      mk_game (d g) (p1 g) (set_cards (p2 g) cs) (game_over g) (tricks g)
        (cards_played_total g) (face_card_active g)
        (remaining_turns_for_trick g) (cards_played g) (active_player g)
  end.

(** [game::switch_player], which compares the ids. *)
Definition switch_player (g : game) : game :=
  mk_game (d g) (p1 g) (p2 g) (game_over g) (tricks g)
    (cards_played_total g) (face_card_active g)
    (remaining_turns_for_trick g) (cards_played g)
    (if id (active g) =? id (p1 g) then ref_p2 else ref_p1).

(** [game::split_cards]: [d.size / 2] with [size = 52]. *)
Definition split_cards (g : game) : game :=
  let mid := Z.to_nat (Deck.size / 2) in
  mk_game (d g) (set_cards (p1 g) (take mid (Deck.cards (d g))))
    (set_cards (p2 g) (drop mid (Deck.cards (d g)))) (game_over g) (tricks g)
    (cards_played_total g) (face_card_active g)
    (remaining_turns_for_trick g) (cards_played g) (active_player g).

(** [game()] followed by [start()], the shuffled deck given. *)
Definition start (shuffled : deck) : game :=
  split_cards
    (mk_game shuffled (mk_player 1 [] 0) (mk_player 2 [] 0) false 0 0 false 0 []
       ref_p1).

(** [game::turn] *)
Definition turn (g : game) : game :=
  match cards (active g) with
  | [] =>
      mk_game (d g) (p1 g) (p2 g) true (tricks g) (cards_played_total g)
        (face_card_active g) (remaining_turns_for_trick g) (cards_played g)
        (active_player g)
  | card :: rest =>
      let g := set_active_cards g rest in
      let face_card_played := 0 <? card in
      let g :=
        mk_game (d g) (p1 g) (p2 g) (game_over g) (tricks g)
          (cards_played_total g + 1)
          (if face_card_played then true else face_card_active g)
          (if face_card_played then card else remaining_turns_for_trick g - 1)
          (cards_played g ++ [card]) (active_player g) in
      if negb (face_card_active g) || face_card_played then switch_player g
      else if (remaining_turns_for_trick g =? 0) && face_card_active g then
        let g :=
          mk_game (d g) (p1 g) (p2 g) (game_over g) (tricks g + 1)
            (cards_played_total g) false (remaining_turns_for_trick g)
            (cards_played g) (active_player g) in
        let g := switch_player g in
        let g := set_active_cards g (cards (active g) ++ cards_played g) in
        mk_game (d g) (p1 g) (p2 g) (game_over g) (tricks g)
          (cards_played_total g) (face_card_active g)
          (remaining_turns_for_trick g) [] (active_player g)
      else g
  end.

(** The loop [while (!game_over) turn();] of [play].  The variant has
    neither a move limit nor cycle detection, so the number of iterations is
    bounded from outside; [None]: the bound was reached with the game still
    running. *)
Fixpoint play_loop (fuel : nat) (g : game) : option game :=
  if game_over g then Some g
  else
    match fuel with
    | O => None
    | S fuel' => play_loop fuel' (turn g)
    end.

(** [game::play]: the game after the call and the returned pair
    [(cards_played_total, tricks)]. *)
Definition play (fuel : nat) (g : game) : option (game * (Z * Z)) :=
  match play_loop fuel g with
  | Some g' => Some (g', (cards_played_total g', tricks g'))
  | None => None
  end.

(** [game::reset] *)
Definition reset (g : game) : game :=
  mk_game (d g) (set_cards (p1 g) []) (set_cards (p2 g) []) false 0 0 false 0 []
    (active_player g).

(** [game::start] called on a game that already exists, as the loop of
    [main] does: [d.shuffle()], [active_player = &p1], [split_cards()].
    Nothing else is touched. *)
Definition start_on (shuffled : deck) (g : game) : game :=
  split_cards
    (mk_game shuffled (p1 g) (p2 g) (game_over g) (tricks g)
       (cards_played_total g) (face_card_active g)
       (remaining_turns_for_trick g) (cards_played g) ref_p1).

End Simple.

(** ** Vocabulary of the properties: runs, counts and named decks *)

(** The states a run passes through: the loop of [play] alternates
    [seen_states.insert] and [turn]. *)
Inductive reachable (g0 : game) : game -> Prop :=
  | reach_start : reachable g0 g0
  | reach_record g : reachable g0 g -> reachable g0 (record_state g)
  | reach_turn g : reachable g0 g -> reachable g0 (turn g).

(** Cards in both hands and on the pile. *)
Definition total_cards (g : game) : nat :=
  (length (hand (p1 g)) + length (hand (p2 g)) + length (pile g))%nat.

(** [n] calls of [turn]. *)
Definition turns (n : nat) (g : game) : game := Nat.iter n turn g.

(** All ranks are 0..4. *)
Definition ranks_ok (d : deck) : Prop := Forall (fun c => 0 <= c <= 4) (cards d).

(** Occurrences of rank [r]. *)
Definition occurrences (r : Z) (d : deck) : nat :=
  count_occ Z.eq_dec (cards d) r.

(** The face ranks J, Q, K, A. *)
Definition face_rank (r : Z) : Prop := 1 <= r <= 4.

(** A deck with four cards of each face rank, 35 plain cards and one card
    that is no rank at all. *)
Definition deck_stray : deck :=
  mk_deck ([9; 1; 1; 1; 1; 2; 2; 2; 2; 3; 3; 3; 3; 4; 4; 4; 4] ++ replicate 35 0).

(** [play] stopped on the move limit: no hand is empty and the limit is
    used up. *)
Definition stopped_by_limit (g : game) : Prop :=
  is_game_over g = false /\ max_moves g <= cards_played_total g.

(** Player [p] has taken the cards [taken] behind the hand [before]. *)
Definition took_pile (before : list Z) (p : player) (taken : list Z) : Prop :=
  hand p = before ++ taken.


(** Scenario A: one Jack, then 51 plain cards. *)
Definition deck_A : deck :=
  from_string ("J" ++ string_of_list_ascii (replicate 51 "-"%char)).

(** A valid deck on which the two hands recur although the game ends. *)
Definition deck_recur : deck :=
  from_string "-J-----QQ-QK-K----J--AJ---------K-JA----K------A-Q-A".

(** The tuple that [run_game_simulation] returns when the shuffle yields
    [deck_recur] ([cycled_result_is_returned]): winner -1 after 56 moves. *)
Definition cycled_result : MainImp.result := MainImp.mk_result (-1) 56 5 deck_recur.

(** The largest move count among the results that name a winner, and 0
    (the initial [high_score]) when there is none. *)
Definition best_recorded (rs : list MainImp.result) : Z :=
  fold_right
    (fun r acc =>
       if 0 <? MainImp.winner r then Z.max (MainImp.cards_played r) acc else acc)
    0 rs.

(** The largest move count among all results, 0 for no result. *)
Definition max_moves_of (rs : list MainImp.result) : Z :=
  fold_right (fun r acc => Z.max (MainImp.cards_played r) acc) 0 rs.

(** The line that the collecting loop writes for a result. *)
Definition line_of (r : MainImp.result) : MainImp.log_line :=
  MainImp.mk_log_line (MainImp.cards_played r) (MainImp.tricks_won r)
    (MainImp.winner r) (to_string (MainImp.game_deck r)).

(** Three results: a cycle, a win after 40 moves and a win after 90. *)
Definition sample_results : list MainImp.result :=
  [cycled_result; MainImp.mk_result 2 40 4 deck_A; MainImp.mk_result 1 90 7 deck_A].

(** The resolution rule of a trick, read on [turn]: the payer of the last
    penalty card keeps the turn and takes the pile, the card just played
    included, behind the rest of the hand. *)
Definition payer_collects (g : game) (card : Z) (rest : list Z) : Prop :=
  let g' := turn g in
  tricks g' = tricks g + 1 /\
  face_card_active g' = false /\
  active_player g' = active_player g /\
  hand (active g') = rest ++ (pile g ++ [card]) /\
  hand (waiting g') = hand (waiting g) /\
  pile g' = [].

(** The same rule read on the first variant. *)
Definition simple_payer_collects (g : Simple.game) (card : Z) (rest : list Z) : Prop :=
  let g' := Simple.turn g in
  Simple.tricks g' = Simple.tricks g + 1 /\
  Simple.face_card_active g' = false /\
  Simple.active_player g' = Simple.active_player g /\
  Simple.cards (Simple.active g') = rest ++ (Simple.cards_played g ++ [card]) /\
  Simple.cards_played g' = [].

(** What the first variant does instead: the turn passes back to the
    player of the face card, who takes the pile. *)
Definition simple_opponent_collects (g : Simple.game) (card : Z) (rest : list Z) : Prop :=
  let g' := Simple.turn g in
  Simple.tricks g' = Simple.tricks g + 1 /\
  Simple.face_card_active g' = false /\
  Simple.active_player g' <> Simple.active_player g /\
  Simple.cards (Simple.active g') =
    Simple.cards (match Simple.active_player g with
                  | ref_p1 => Simple.p2 g | ref_p2 => Simple.p1 g end)
    ++ (Simple.cards_played g ++ [card]) /\
  Simple.cards (match Simple.active_player g with
                | ref_p1 => Simple.p1 g' | ref_p2 => Simple.p2 g' end) = rest /\
  Simple.cards_played g' = [].

(** While a penalty is pending the pile holds at least the face card. *)
Definition pile_holds_face (g : game) : Prop :=
  face_card_active g = true -> pile g <> [].

(** All cards of a game: both hands, then the pile. *)
Definition all_cards (g : game) : list Z :=
  hand (p1 g) ++ hand (p2 g) ++ pile g.

(** The game with the visited set forgotten. *)
Definition erase (g : game) : game := set_seen_states g ∅.

(** The penalty counter agrees with the penalty flag and stays within the
    largest rank [bound]. *)
Definition penalty_in_step (bound : Z) (g : game) : Prop :=
  if face_card_active g
  then 1 <= remaining_penalties g <= bound
  else remaining_penalties g = 0.

(** No card is a face card. *)
Definition all_plain (dk : deck) : Prop := Forall (fun c => c <= 0) (cards dk).

(** The first 52 characters of a deck string. *)
Definition parsed_chars (str : string) : list ascii :=
  take (Z.to_nat size) (list_ascii_of_string str).

(** Each of the four face letters occurs four times among the characters
    that [from_string] reads. *)
Definition four_of_each_letter (str : string) : Prop :=
  forall c : ascii,
    c = "J"%char \/ c = "Q"%char \/ c = "K"%char \/ c = "A"%char ->
    count_occ ascii_dec (parsed_chars str) c = 4%nat.

(** The positions of the cards of rank [r] in [cs], counted from [i]. *)
Fixpoint positions_from (r : Z) (cs : list Z) (i : nat) : list nat :=
  match cs with
  | [] => []
  | c :: cs' =>
      if Z.eq_dec c r then i :: positions_from r cs' (S i)
      else positions_from r cs' (S i)
  end.

(** Draws that deal the deck [dk]: the positions of its Jacks, then of
    its Queens, Kings and Aces. *)
Definition draws_for (dk : deck) : list nat :=
  positions_from 1 (cards dk) 0 ++ positions_from 2 (cards dk) 0 ++
  positions_from 3 (cards dk) 0 ++ positions_from 4 (cards dk) 0.

(** [cards[pos] = card] for each of the positions [ps] in turn. *)
Definition write_all (card : Z) (cs : list Z) (ps : list nat) : list Z :=
  fold_left (fun l pos => <[pos := card]> l) ps cs.

(** A card as [operator<<] and [from_string] together see it: ranks 1..4
    as they are, every other [int] as a plain card. *)
Definition as_rank (c : Z) : Z := if (1 <=? c) && (c <=? 4) then c else 0.

(** The five characters [operator<<] writes. *)
Definition deck_letter (c : ascii) : Prop :=
  c = "-"%char \/ c = "J"%char \/ c = "Q"%char \/ c = "K"%char \/ c = "A"%char.

(** The scores of the lines written to the log. *)
Definition logged_scores (h : MainImp.harness) : list Z :=
  map MainImp.line_score (MainImp.file h).

(** All cards of a game of the first variant. *)
Definition simple_all_cards (g : Simple.game) : list Z :=
  Simple.cards (Simple.p1 g) ++ Simple.cards (Simple.p2 g) ++ Simple.cards_played g.

(** A deck string with the sixteen face cards first. *)
Definition short_deck_string : string := "JJJJQQQQKKKKAAAA".

(** Sixteen draws that hit sixteen different slots, with a repeated draw
    in between. *)
Definition sample_draws : list nat :=
  [0; 5; 5; 10; 15; 1; 6; 11; 0; 16; 2; 7; 12; 17; 3; 8; 13; 18; 51]%nat.

(** * Properties *)

(** ** One turn *)

(** Splits nested conjunctions, leaving the equations to the caller. *)
Ltac split_all := repeat match goal with |- _ /\ _ => split end.

Lemma turn_empty (g : game) : hand (active g) = [] -> turn g = g.
Proof. unfold turn. now intros ->. Qed.

(** [turn] when player 1 is active and holds a card, field by field. *)
Lemma turn_p1 dk i1 i2 h2 tot tr pl rem fa lim seen card rest :
  turn (mk_game dk (mk_player i1 (card :: rest)) (mk_player i2 h2)
          tot tr pl rem fa ref_p1 lim seen) =
  if 0 <? card then
    mk_game dk (mk_player i1 rest) (mk_player i2 h2)
      (tot + 1) tr (pl ++ [card]) card true ref_p2 lim seen
  else if fa then
    if rem - 1 =? 0 then
      mk_game dk (mk_player i1 (rest ++ (pl ++ [card]))) (mk_player i2 h2)
        (tot + 1) (tr + 1) [] (rem - 1) false ref_p1 lim seen
    else
      mk_game dk (mk_player i1 rest) (mk_player i2 h2)
        (tot + 1) tr (pl ++ [card]) (rem - 1) true ref_p2 lim seen
  else
    mk_game dk (mk_player i1 rest) (mk_player i2 h2)
      (tot + 1) tr (pl ++ [card]) rem false ref_p2 lim seen.
Proof.
  unfold turn. cbn. destruct (0 <? card); [reflexivity|].
  cbn. destruct fa; [|reflexivity].
  cbn. destruct (rem - 1 =? 0); reflexivity.
Qed.

(** [turn] when player 2 is active and holds a card. *)
Lemma turn_p2 dk i1 i2 h1 tot tr pl rem fa lim seen card rest :
  turn (mk_game dk (mk_player i1 h1) (mk_player i2 (card :: rest))
          tot tr pl rem fa ref_p2 lim seen) =
  if 0 <? card then
    mk_game dk (mk_player i1 h1) (mk_player i2 rest)
      (tot + 1) tr (pl ++ [card]) card true ref_p1 lim seen
  else if fa then
    if rem - 1 =? 0 then
      mk_game dk (mk_player i1 h1) (mk_player i2 (rest ++ (pl ++ [card])))
        (tot + 1) (tr + 1) [] (rem - 1) false ref_p2 lim seen
    else
      mk_game dk (mk_player i1 h1) (mk_player i2 rest)
        (tot + 1) tr (pl ++ [card]) (rem - 1) true ref_p1 lim seen
  else
    mk_game dk (mk_player i1 h1) (mk_player i2 rest)
      (tot + 1) tr (pl ++ [card]) rem false ref_p1 lim seen.
Proof.
  unfold turn. cbn. destruct (0 <? card); [reflexivity|].
  cbn. destruct fa; [|reflexivity].
  cbn. destruct (rem - 1 =? 0); reflexivity.
Qed.

(** Case analysis on a goal about [turn g]: who is active, whether the
    hand is empty, and the tests of [turn]. *)
Ltac turn_cases g :=
  destruct g as [dk [i1 h1] [i2 h2] tot tr pl rem fa [] lim seen];
  [ destruct h1 as [|card rest];
    [rewrite turn_empty by reflexivity | rewrite turn_p1]
  | destruct h2 as [|card rest];
    [rewrite turn_empty by reflexivity | rewrite turn_p2] ];
  cbn;
  repeat match goal with
         | |- context [if ?b then _ else _] => destruct b eqn:?; cbn
         end.

Lemma turn_total_cards (g : game) : total_cards (turn g) = total_cards g.
Proof.
  turn_cases g; unfold total_cards; cbn;
    rewrite ?length_app; cbn; lia.
Qed.

Lemma record_state_total_cards (g : game) :
  total_cards (record_state g) = total_cards g.
Proof. reflexivity. Qed.

Lemma turn_ids (g : game) :
  id (p1 (turn g)) = id (p1 g) /\ id (p2 (turn g)) = id (p2 g).
Proof. turn_cases g; split; reflexivity. Qed.

Lemma turn_pile_holds_face (g : game) :
  pile_holds_face g -> pile_holds_face (turn g).
Proof.
  unfold pile_holds_face.
  turn_cases g; intros H Hfa; try discriminate; auto;
    try (intros E; apply app_eq_nil in E as [_ E]; discriminate).
Qed.

(** ** Invariants of a run *)

Section Run.

(** The state a run starts from. *)
Variable g0 : game.

Lemma reachable_total_cards (g : game) :
  reachable g0 g -> total_cards g = total_cards g0.
Proof.
  induction 1 as [|g Hg IH|g Hg IH]; [reflexivity| |].
  - now rewrite record_state_total_cards.
  - now rewrite turn_total_cards.
Qed.

Lemma reachable_ids (g : game) :
  reachable g0 g -> id (p1 g) = id (p1 g0) /\ id (p2 g) = id (p2 g0).
Proof.
  induction 1 as [|g Hg IH|g Hg IH]; [split; reflexivity|exact IH|].
  destruct (turn_ids g) as [-> ->]. exact IH.
Qed.

Lemma reachable_turns (n : nat) : reachable g0 (turns n g0).
Proof.
  induction n as [|n IH]; [apply reach_start|].
  unfold turns; cbn. now apply reach_turn.
Qed.

Lemma reachable_trans (g1 g2 : game) :
  reachable g0 g1 -> reachable g1 g2 -> reachable g0 g2.
Proof.
  intros H01 H12. induction H12; [assumption| |].
  - now apply reach_record.
  - now apply reach_turn.
Qed.

Hypothesis start_ok : pile_holds_face g0.

Lemma reachable_pile_holds_face (g : game) :
  reachable g0 g -> pile_holds_face g.
Proof.
  induction 1 as [|g Hg IH|g Hg IH]; [assumption| |].
  - exact IH.
  - now apply turn_pile_holds_face.
Qed.

End Run.

Lemma start_pile_holds_face (g : game) : pile_holds_face (start g).
Proof. intros Hfa. discriminate Hfa. Qed.

Lemma turn_payer_collects (g : game) (card : Z) (rest : list Z) :
  hand (active g) = card :: rest ->
  card <= 0 ->
  face_card_active g = true ->
  remaining_penalties g - 1 = 0 ->
  payer_collects g card rest.
Proof.
  unfold payer_collects.
  destruct g as [dk [i1 h1] [i2 h2] tot tr pl rem fa [] lim seen];
    cbn; intros -> Hc -> Hrem; rewrite ?turn_p1, ?turn_p2;
    (destruct (0 <? card) eqn:E; [apply Z.ltb_lt in E; lia|]);
    rewrite Hrem; cbn; split_all; reflexivity.
Qed.

Lemma simple_turn_opponent_collects (g : Simple.game) (card : Z) (rest : list Z) :
  Simple.id (Simple.p1 g) <> Simple.id (Simple.p2 g) ->
  Simple.cards (Simple.active g) = card :: rest ->
  card <= 0 ->
  Simple.face_card_active g = true ->
  Simple.remaining_turns_for_trick g - 1 = 0 ->
  simple_opponent_collects g card rest.
Proof.
  unfold simple_opponent_collects.
  destruct g as [dk [i1 h1 m1] [i2 h2 m2] over tr tot fa rem pl []];
    cbn; intros Hid -> Hc -> Hrem; unfold Simple.turn; cbn;
    (destruct (0 <? card) eqn:E; [apply Z.ltb_lt in E; lia|]);
    rewrite Hrem; cbn; unfold Simple.switch_player; cbn.
  - rewrite Z.eqb_refl. cbn. repeat split. discriminate.
  - destruct (i2 =? i1) eqn:E2; [apply Z.eqb_eq in E2; congruence|].
    cbn. repeat split. discriminate.
Qed.

(** ** The loop of [play] *)

Lemma keep_playing_hands (g : game) :
  keep_playing g = true ->
  hand (p1 g) <> [] /\ hand (p2 g) <> [] /\ cards_played_total g < max_moves g.
Proof.
  unfold keep_playing, is_game_over. intros H.
  apply andb_true_iff in H as [Hover Hlt].
  apply negb_true_iff, orb_false_iff in Hover as [H1 H2].
  apply bool_decide_eq_false in H1, H2. apply Z.ltb_lt in Hlt. auto.
Qed.

Lemma turn_max_moves (g : game) : max_moves (turn g) = max_moves g.
Proof. turn_cases g; reflexivity. Qed.

Lemma turn_deck (g : game) : d (turn g) = d g.
Proof. turn_cases g; reflexivity. Qed.

Lemma turn_plays_a_card (g : game) :
  hand (active g) <> [] ->
  cards_played_total (turn g) = cards_played_total g + 1.
Proof. turn_cases g; intros H; try reflexivity; congruence. Qed.

Lemma active_hand_nonempty (g : game) :
  hand (p1 g) <> [] -> hand (p2 g) <> [] -> hand (active g) <> [].
Proof. unfold active. now destruct (active_player g). Qed.

Lemma loop_body_counts (g : game) :
  keep_playing g = true ->
  cards_played_total (turn (record_state g)) = cards_played_total g + 1 /\
  max_moves (turn (record_state g)) = max_moves g.
Proof.
  intros H. apply keep_playing_hands in H as (H1 & H2 & _).
  rewrite turn_max_moves. split; [|reflexivity].
  rewrite turn_plays_a_card; [reflexivity|].
  now apply active_hand_nonempty.
Qed.

(** The loop terminates: with [play_fuel g] iterations allowed it leaves
    through one of its two exits. *)
Lemma play_loop_returns (fuel : nat) (g : game) :
  (play_fuel g <= fuel)%nat -> exists out, play_loop fuel g = Some out.
Proof.
  revert g. induction fuel as [|fuel IH]; intros g Hfuel; cbn.
  - destruct (keep_playing g) eqn:Hk; [|eauto].
    apply keep_playing_hands in Hk as (_ & _ & Hlt).
    unfold play_fuel in Hfuel. lia.
  - destruct (keep_playing g) eqn:Hk; [|eauto].
    destruct (bool_decide (state_of g ∈ seen_states g)); [eauto|].
    apply IH. destruct (loop_body_counts g Hk) as [Ht Hm].
    unfold play_fuel in *. rewrite Ht, Hm. lia.
Qed.

(** What holds when the loop is left. *)
Lemma play_loop_exit (fuel : nat) (g g' : game) (e : loop_exit) :
  play_loop fuel g = Some (g', e) ->
  reachable g g' /\
  match e with
  | exit_cycle => keep_playing g' = true /\ state_of g' ∈ seen_states g'
  | exit_condition => keep_playing g' = false
  end.
Proof.
  revert g. induction fuel as [|fuel IH]; intros g; cbn.
  - destruct (keep_playing g) eqn:Hk; [discriminate|].
    intros [= <- <-]. split; [apply reach_start | assumption].
  - destruct (keep_playing g) eqn:Hk.
    + destruct (bool_decide (state_of g ∈ seen_states g)) eqn:Hseen.
      * intros [= <- <-]. split; [apply reach_start|].
        split; [assumption | now apply bool_decide_eq_true in Hseen].
      * intros H. apply IH in H as [Hr He]. split; [|assumption].
        eapply reachable_trans; [|exact Hr].
        apply reach_turn, reach_record, reach_start.
    + intros [= <- <-]. split; [apply reach_start | assumption].
Qed.

Lemma turn_counters (g : game) :
  0 <= tricks g <= cards_played_total g ->
  hand (active g) <> [] ->
  0 <= tricks (turn g) <= cards_played_total (turn g).
Proof. turn_cases g; cbn; intros H Hne; try lia; congruence. Qed.

(** The counters of a run stay in the range of an [int] when the move
    limit does. *)
Lemma play_loop_counters (fuel : nat) (g g' : game) (e : loop_exit) :
  play_loop fuel g = Some (g', e) ->
  0 <= tricks g <= cards_played_total g ->
  cards_played_total g <= Z.max 0 (max_moves g) ->
  0 <= tricks g' <= cards_played_total g' /\
  cards_played_total g' <= Z.max 0 (max_moves g') /\
  max_moves g' = max_moves g.
Proof.
  revert g. induction fuel as [|fuel IH]; intros g; cbn.
  - destruct (keep_playing g); [discriminate|]. intros [= <- <-]. auto.
  - destruct (keep_playing g) eqn:Hk; [|intros [= <- <-]; auto].
    destruct (bool_decide (state_of g ∈ seen_states g));
      [intros [= <- <-]; auto|].
    intros H Htr Htot.
    destruct (loop_body_counts g Hk) as [Ht Hm].
    pose proof (keep_playing_hands g Hk) as (H1 & H2 & Hlt).
    apply IH in H as (Ha & Hb & Hc).
    + rewrite Hm in Hc. auto.
    + apply turn_counters; [exact Htr|].
      now apply (active_hand_nonempty (record_state g)).
    + rewrite Ht, Hm. lia.
Qed.

Lemma test_suite_play_returns (g : game) :
  exists g' e, TestSuite.play g = Some (g', TestSuite.report g' e) /\
               play_loop (play_fuel g) g = Some (g', e).
Proof.
  destruct (play_loop_returns (play_fuel g) g (Nat.le_refl _)) as [[g' e] H].
  exists g', e. unfold TestSuite.play. now rewrite H.
Qed.

Lemma main_imp_play_returns (g : game) :
  exists g' e, MainImp.play g = Some (g', MainImp.report g' e) /\
               play_loop (play_fuel g) g = Some (g', e).
Proof.
  destruct (play_loop_returns (play_fuel g) g (Nat.le_refl _)) as [[g' e] H].
  exists g', e. unfold MainImp.play. now rewrite H.
Qed.

Lemma keep_playing_false (g : game) :
  keep_playing g = false ->
  is_game_over g = true \/
  (is_game_over g = false /\ max_moves g <= cards_played_total g).
Proof.
  unfold keep_playing. destruct (is_game_over g); cbn; [auto|].
  intros H. apply Z.ltb_ge in H. auto.
Qed.

Lemma keep_playing_true (g : game) :
  keep_playing g = true ->
  is_game_over g = false /\ cards_played_total g < max_moves g.
Proof.
  unfold keep_playing. destruct (is_game_over g); cbn; [discriminate|].
  intros H. apply Z.ltb_lt in H. auto.
Qed.

Lemma report_winner_over (g : game) (e : loop_exit) :
  is_game_over g = true ->
  TestSuite.winner (TestSuite.report g e) = 1 \/
  TestSuite.winner (TestSuite.report g e) = 2.
Proof.
  intros H. unfold TestSuite.report. rewrite H. cbn.
  destruct (bool_decide (hand (p1 g) = [])); auto.
Qed.

Lemma report_winner_not_over (g : game) (e : loop_exit) :
  is_game_over g = false -> TestSuite.winner (TestSuite.report g e) = -1.
Proof. intros H. unfold TestSuite.report. now rewrite H. Qed.

(** ** Trick resolution *)

(** C1 (amended).  In test-suite.cpp and main-imp.cpp, a turn in which the
    active player plays a plain card while a penalty is active and the
    remaining count reaches 0 increments [tricks], clears
    [face_card_active], lets the same player append the whole pile (in pile
    order, the card just played last) behind the own hand, empties the pile
    and does not switch the player.  In the first variant such a turn also
    increments [tricks] and clears the flag, but it switches the player
    first: the opponent, who played the face card, takes the pile and
    moves next. *)
Theorem trick_resolution :
  (forall (g : game) (card : Z) (rest : list Z),
      hand (active g) = card :: rest ->
      card <= 0 ->
      face_card_active g = true ->
      remaining_penalties g - 1 = 0 ->
      payer_collects g card rest) /\
  (forall (g : Simple.game) (card : Z) (rest : list Z),
      Simple.id (Simple.p1 g) <> Simple.id (Simple.p2 g) ->
      Simple.cards (Simple.active g) = card :: rest ->
      card <= 0 ->
      Simple.face_card_active g = true ->
      Simple.remaining_turns_for_trick g - 1 = 0 ->
      simple_opponent_collects g card rest).
Proof.
  split.
  - exact turn_payer_collects.
  - exact simple_turn_opponent_collects.
Qed.

Lemma trick_resolution_witness :
  payer_collects (turn (start (new_game deck_A 1000000))) 0 (replicate 25 0) /\
  simple_opponent_collects (Simple.turn (Simple.start deck_A)) 0 (replicate 25 0).
Proof.
  split.
  - apply (proj1 trick_resolution); [reflexivity | lia | reflexivity | reflexivity].
  - apply (proj2 trick_resolution);
      [discriminate | reflexivity | lia | reflexivity | reflexivity].
Defined.

(** C1, as stated, fails on the first variant: after player 1 leads the
    Jack of scenario A and player 2 pays the one penalty card, the player
    has switched and player 2 did not take the pile. *)
Lemma trick_resolution_simple_counterexample :
  let g := Simple.turn (Simple.start deck_A) in
  Simple.cards (Simple.active g) = 0 :: replicate 25 0 /\
  Simple.face_card_active g = true /\
  Simple.remaining_turns_for_trick g - 1 = 0 /\
  ~ simple_payer_collects g 0 (replicate 25 0).
Proof.
  cbv zeta. repeat split.
  intros (_ & _ & Hsame & _). vm_compute in Hsame. discriminate Hsame.
Qed.

(** C10.  In a run, when a penalty of 1 remains and the active player holds
    one plain card, playing it does not empty the hand for good: after
    [turn] the same player holds the former pile followed by that card, at
    least two cards, and the pile is empty. *)
Theorem last_card_pays_penalty
    (initial_deck : deck) (limit : Z) (g : game) (c : Z) :
  reachable (start (new_game initial_deck limit)) g ->
  face_card_active g = true ->
  remaining_penalties g = 1 ->
  hand (active g) = [c] ->
  c <= 0 ->
  active_player (turn g) = active_player g /\
  hand (active (turn g)) = pile g ++ [c] /\
  length (hand (active (turn g))) = S (length (pile g)) /\
  (2 <= length (hand (active (turn g))))%nat /\
  pile (turn g) = [] /\
  hand (active (turn g)) <> [].
Proof.
  intros Hreach Hfa Hrem Hhand Hc.
  assert (Hpile : pile g <> []).
  { apply (reachable_pile_holds_face _ (start_pile_holds_face _) g Hreach). exact Hfa. }
  destruct (turn_payer_collects g c [] Hhand Hc Hfa ltac:(lia))
    as (_ & _ & Hact & Hcol & _ & Hempty).
  cbn in Hcol. rewrite Hcol, length_app. cbn.
  split; [exact Hact|]. split; [reflexivity|]. split; [lia|].
  split; [|split; [exact Hempty|]].
  - destruct (pile g); [congruence | cbn; lia].
  - intros E. apply app_eq_nil in E as [_ E]. discriminate.
Qed.

Lemma last_card_pays_penalty_witness :
  let g := turns 54 (start (new_game deck_recur 1000000)) in
  hand (active g) = [0] /\
  face_card_active g = true /\
  remaining_penalties g = 1 /\
  hand (active (turn g)) = [1; 0] /\
  (2 <= length (hand (active (turn g))))%nat.
Proof.
  cbv zeta.
  assert (Hfa : face_card_active (turns 54 (start (new_game deck_recur 1000000))) = true)
    by (vm_compute; reflexivity).
  assert (Hrem : remaining_penalties (turns 54 (start (new_game deck_recur 1000000))) = 1)
    by (vm_compute; reflexivity).
  assert (Hhand : hand (active (turns 54 (start (new_game deck_recur 1000000)))) = [0])
    by (vm_compute; reflexivity).
  destruct (last_card_pays_penalty deck_recur 1000000 _ 0
              (reachable_turns _ 54) Hfa Hrem Hhand ltac:(lia))
    as (_ & Hcol & _ & Htwo & _).
  split; [exact Hhand|]. split; [exact Hfa|]. split; [exact Hrem|].
  split; [|exact Htwo].
  rewrite Hcol. vm_compute. reflexivity.
Defined.

(** ** Card conservation *)

(** C6.  A run on a 52-card deck starts from hands of 26 and 26 and an empty
    pile; every state the run passes through has 52 cards in the two hands
    and the pile together, and every call of [turn] keeps that count. *)
Theorem card_conservation (initial_deck : deck) (limit : Z) :
  length (cards initial_deck) = 52%nat ->
  let g0 := start (new_game initial_deck limit) in
  (length (hand (p1 g0)) = 26%nat /\ length (hand (p2 g0)) = 26%nat /\
   pile g0 = []) /\
  (forall g, reachable g0 g -> total_cards g = 52%nat) /\
  (forall g, total_cards (turn g) = total_cards g).
Proof.
  intros Hlen g0.
  assert (H0 : length (hand (p1 g0)) = 26%nat /\ length (hand (p2 g0)) = 26%nat).
  { subst g0. cbn. rewrite Hlen. cbn.
    rewrite length_take, length_drop, Hlen. split; reflexivity. }
  split; [|split].
  - destruct H0. repeat split; assumption.
  - intros g Hg. rewrite (reachable_total_cards g0 g Hg).
    unfold total_cards. destruct H0 as [-> ->]. reflexivity.
  - exact turn_total_cards.
Qed.

Lemma card_conservation_witness :
  length (cards deck_recur) = 52%nat /\
  total_cards (turns 40 (start (new_game deck_recur 1000000))) = 52%nat.
Proof.
  split; [reflexivity|].
  pose proof (card_conservation deck_recur 1000000 eq_refl) as H.
  cbv zeta in H. destruct H as (_ & Hall & _).
  apply Hall, reachable_turns.
Defined.

(** The batch variant starts from the same state as the replay variant
    with the limit 10000, so statements over
    [start (new_game initial_deck limit)] cover both. *)
Lemma main_imp_start (shuffled : deck) :
  MainImp.start shuffled MainImp.new_game =
  start (new_game shuffled MainImp.default_max_moves).
Proof. reflexivity. Qed.

(** ** Outcomes of [play] *)

(** C4.  Every run of [play] of test-suite.cpp returns, and its result is
    in exactly one of the three categories that [main] reports: a winner
    (1 or 2, some hand is empty, no cycle flag), a cycle (flag set, winner
    -1, no hand empty, limit not used up) or the move limit (winner -1, no
    cycle flag, no hand empty, limit used up).  A run that empties a hand
    with the very move that uses up the limit counts as won. *)
Theorem play_outcome_trichotomy (initial_deck : deck) (limit : Z) :
  exists (g' : game) (r : TestSuite.result),
    TestSuite.run initial_deck limit = Some (g', r) /\
    TestSuite.moves_played r = cards_played_total g' /\
    ((TestSuite.classify r = TestSuite.player_won /\
      (TestSuite.winner r = 1 \/ TestSuite.winner r = 2) /\
      TestSuite.cycled r = false /\
      is_game_over g' = true)
     \/
     (TestSuite.classify r = TestSuite.cycle_detected /\
      TestSuite.winner r = -1 /\
      TestSuite.cycled r = true /\
      is_game_over g' = false /\
      TestSuite.moves_played r < limit)
     \/
     (TestSuite.classify r = TestSuite.limit_reached /\
      TestSuite.winner r = -1 /\
      TestSuite.cycled r = false /\
      is_game_over g' = false /\
      limit <= TestSuite.moves_played r)).
Proof.
  unfold TestSuite.run.
  destruct (test_suite_play_returns (start (new_game initial_deck limit)))
    as (g' & e & Hplay & Hloop).
  exists g', (TestSuite.report g' e). split; [exact Hplay|].
  split; [reflexivity|].
  pose proof (play_loop_counters _ _ _ _ Hloop) as Hcnt.
  destruct (play_loop_exit _ _ _ _ Hloop) as [_ Hexit].
  assert (Hlim : max_moves g' = limit).
  { apply Hcnt; cbn; lia. }
  destruct e.
  - apply keep_playing_false in Hexit as [Hover | [Hover Hmax]].
    + left. pose proof (report_winner_over g' exit_condition Hover) as Hw.
      unfold TestSuite.classify. cbn [TestSuite.cycled TestSuite.report].
      repeat split; try assumption.
      destruct Hw as [-> | ->]; reflexivity.
    + right; right.
      pose proof (report_winner_not_over g' exit_condition Hover) as Hw.
      unfold TestSuite.classify. rewrite Hw.
      cbn [TestSuite.cycled TestSuite.moves_played TestSuite.report].
      repeat split; try assumption. lia.
  - destruct Hexit as [Hkeep _].
    apply keep_playing_true in Hkeep as [Hover Hlt].
    right; left.
    pose proof (report_winner_not_over g' exit_cycle Hover) as Hw.
    repeat split; try assumption.
    cbn [TestSuite.moves_played TestSuite.report]. lia.
Qed.

(** A run can empty a hand with the move that uses up the limit; it is
    reported as won. *)
Lemma win_on_the_last_allowed_move :
  option_map snd (TestSuite.run deck_A 52) =
  Some (TestSuite.mk_result 2 52 1 false).
Proof. vm_compute. reflexivity. Qed.

(** C7.  On a game whose players carry the ids 1 and 2, as every
    constructed game does, [play] of main-imp.cpp and [play] of
    test-suite.cpp both return and leave the same game behind.  When that
    game stopped on the move limit with no hand empty, main-imp.cpp returns
    the id of the active player (1 or 2) as winner and test-suite.cpp
    returns -1; test-suite.cpp names a winner only when a hand is empty. *)
Theorem winner_on_move_limit (g : game) :
  id (p1 g) = 1 ->
  id (p2 g) = 2 ->
  exists (g' : game) (rm : MainImp.result) (rt : TestSuite.result),
    MainImp.play g = Some (g', rm) /\
    TestSuite.play g = Some (g', rt) /\
    (stopped_by_limit g' ->
     MainImp.winner rm = id (active g') /\
     (MainImp.winner rm = 1 \/ MainImp.winner rm = 2) /\
     TestSuite.winner rt = -1) /\
    (TestSuite.winner rt <> -1 -> is_game_over g' = true).
Proof.
  intros Hid1 Hid2.
  destruct (main_imp_play_returns g) as (g' & e & Hm & Hloop).
  exists g', (MainImp.report g' e), (TestSuite.report g' e).
  split; [exact Hm|]. split.
  { unfold TestSuite.play. now rewrite Hloop. }
  destruct (play_loop_exit _ _ _ _ Hloop) as [Hreach Hexit].
  split.
  - intros [Hover Hmax].
    assert (Hw : MainImp.winner (MainImp.report g' e) = id (active g')).
    { destruct e; [reflexivity|].
      destruct Hexit as [Hkeep _].
      apply keep_playing_true in Hkeep as [_ Hlt]. lia. }
    split; [exact Hw|]. split; [|now apply report_winner_not_over].
    rewrite Hw. destruct (reachable_ids g g' Hreach) as [H1 H2].
    unfold active. destruct (active_player g'); [left | right]; congruence.
  - intros Hw. destruct (is_game_over g') eqn:Hover; [reflexivity|].
    now rewrite report_winner_not_over in Hw.
Qed.

Lemma winner_on_move_limit_witness :
  exists (g' : game) (rm : MainImp.result) (rt : TestSuite.result),
    MainImp.play (start (new_game deck_A 10)) = Some (g', rm) /\
    TestSuite.play (start (new_game deck_A 10)) = Some (g', rt) /\
    stopped_by_limit g' /\
    MainImp.winner rm = 2 /\ TestSuite.winner rt = -1.
Proof.
  destruct (winner_on_move_limit (start (new_game deck_A 10)) eq_refl eq_refl)
    as (g' & rm & rt & Hm & Ht & Hlim & _).
  exists g', rm, rt. split; [exact Hm|]. split; [exact Ht|].
  assert (E : option_map
                (fun out => (is_game_over (fst out), cards_played_total (fst out),
                             max_moves (fst out), id (active (fst out))))
                (MainImp.play (start (new_game deck_A 10)))
              = Some (false, 10, 10, 2))
    by (vm_compute; reflexivity).
  rewrite Hm in E. cbn [option_map fst] in E. injection E as Hover Htot Hmax Hid.
  assert (Hstop : stopped_by_limit g').
  { split; [exact Hover | rewrite Htot, Hmax; lia]. }
  split; [exact Hstop|].
  destruct (Hlim Hstop) as (Hwm & _ & Hwt). split; [|exact Hwt].
  rewrite Hwm. exact Hid.
Defined.

(** ** Cycle detection *)

(** C2, the code at a deck on which it fails.  [deck_recur] passes
    [is_valid].  After 54 moves player 1 holds one plain card and owes one
    penalty card for the Jack on the pile; player 1 pays it, takes the pile
    (Jack and plain card), leads the Jack, and after 56 moves the two hands
    are the ones seen after 54 moves, now with player 2 owing the penalty.
    [play] of test-suite.cpp returns with the cycle flag set and winner -1
    (main-imp.cpp returns winner -1), yet three more calls of [turn] empty
    player 1's hand: the game ends after 59 moves. *)
Theorem cycle_report_on_terminating_game :
  let g0 := start (new_game deck_recur 1000000) in
  is_valid deck_recur = true /\
  state_of (turns 54 g0) = state_of (turns 56 g0) /\
  is_game_over (turns 56 g0) = false /\
  option_map snd (TestSuite.run deck_recur 1000000) =
    Some (TestSuite.mk_result (-1) 56 5 true) /\
  option_map (fun out => MainImp.winner (snd out))
    (MainImp.run_game_simulation deck_recur) = Some (-1) /\
  option_map (fun out => state_of (fst out)) (TestSuite.run deck_recur 1000000) =
    Some (state_of (turns 56 g0)) /\
  option_map (fun out => is_game_over (turns 3 (fst out)))
    (TestSuite.run deck_recur 1000000) = Some true /\
  hand (p1 (turns 59 g0)) = [] /\
  is_game_over (turns 59 g0) = true.
Proof. cbv zeta. split_all; vm_compute; reflexivity. Qed.

(** The states around the recurrence, for tracing by hand. *)
Lemma recurrence_trace :
  let g0 := start (new_game deck_recur 1000000) in
  let view g := (hand (p1 g), length (hand (p2 g)), pile g, active_player g,
                 remaining_penalties g, face_card_active g) in
  view (turns 54 g0) = ([0], 50%nat, [1], ref_p1, 1, true) /\
  view (turns 55 g0) = ([1; 0], 50%nat, [], ref_p1, 0, false) /\
  view (turns 56 g0) = ([0], 50%nat, [1], ref_p2, 1, true) /\
  view (turns 57 g0) = ([0], 51%nat, [], ref_p2, 0, false) /\
  view (turns 58 g0) = ([0], 50%nat, [0], ref_p1, 0, false) /\
  view (turns 59 g0) = ([], 50%nat, [0; 0], ref_p2, 0, false).
Proof. cbv zeta. split_all; vm_compute; reflexivity. Qed.

(** ** Scenario A *)

(** C3 (amended).  On the deck "J" followed by 51 "-", player 1 leads the
    Jack, player 2 pays the one penalty card, the trick resolves at once and
    player 2, who paid, takes the pile of 2 cards and keeps the turn.
    [play] then returns after 52 moves with player 1's hand empty: winner
    2, one trick, no cycle. *)
Theorem scenario_A :
  let g0 := start (new_game deck_A 1000000) in
  let g1 := turn g0 in
  let g2 := turn g1 in
  cards deck_A = 1 :: replicate 51 0 /\
  (hand (p1 g0) = 1 :: replicate 25 0 /\ hand (p2 g0) = replicate 26 0 /\
   active_player g0 = ref_p1) /\
  (pile g1 = [1] /\ hand (p1 g1) = replicate 25 0 /\ active_player g1 = ref_p2 /\
   face_card_active g1 = true /\ remaining_penalties g1 = 1) /\
  (pile g2 = [] /\ tricks g2 = 1 /\ face_card_active g2 = false /\
   cards_played_total g2 = 2 /\ active_player g2 = ref_p2 /\
   took_pile (replicate 25 0) (p2 g2) [1; 0] /\
   hand (p1 g2) = replicate 25 0) /\
  option_map snd (TestSuite.run deck_A 1000000) =
    Some (TestSuite.mk_result 2 52 1 false) /\
  option_map (fun out => hand (p1 (fst out))) (TestSuite.run deck_A 1000000) =
    Some [].
Proof. cbv zeta. unfold took_pile. split_all; vm_compute; reflexivity. Qed.

(** C3, as stated, fails: after the second turn player 1 has not taken the
    pile. *)
Lemma scenario_A_player1_does_not_collect :
  let g1 := turn (start (new_game deck_A 1000000)) in
  pile g1 = [1] /\ hand (p2 g1) = replicate 26 0 /\
  ~ took_pile (hand (p1 g1)) (p1 (turn g1)) [1; 0].
Proof.
  cbv zeta. split; [vm_compute; reflexivity|].
  split; [vm_compute; reflexivity|].
  unfold took_pile. vm_compute. discriminate.
Qed.

(** ** The collecting loop of the batch search *)

Lemma improves_iff (h : MainImp.harness) (r : MainImp.result) :
  MainImp.improves h r = true <->
  0 < MainImp.winner r /\ MainImp.high_score h < MainImp.cards_played r.
Proof.
  unfold MainImp.improves. rewrite andb_true_iff, !Z.ltb_lt. reflexivity.
Qed.

Lemma collect_improving (h : MainImp.harness) (r : MainImp.result) :
  0 < MainImp.winner r /\ MainImp.high_score h < MainImp.cards_played r ->
  MainImp.collect h r =
  MainImp.mk_harness (MainImp.cards_played r) (MainImp.games_completed h + 1)
    (MainImp.file h ++ [line_of r]).
Proof.
  intros H. apply improves_iff in H. unfold MainImp.collect.
  unfold MainImp.improves in *. cbn. now rewrite H.
Qed.

Lemma collect_not_improving (h : MainImp.harness) (r : MainImp.result) :
  ~ (0 < MainImp.winner r /\ MainImp.high_score h < MainImp.cards_played r) ->
  MainImp.collect h r =
  MainImp.mk_harness (MainImp.high_score h) (MainImp.games_completed h + 1)
    (MainImp.file h).
Proof.
  intros H. rewrite <- improves_iff in H. apply not_true_is_false in H.
  unfold MainImp.collect. unfold MainImp.improves in *. cbn. now rewrite H.
Qed.

Lemma collect_high_score (h : MainImp.harness) (r : MainImp.result) :
  MainImp.high_score (MainImp.collect h r) =
  if 0 <? MainImp.winner r
  then Z.max (MainImp.cards_played r) (MainImp.high_score h)
  else MainImp.high_score h.
Proof.
  destruct (Z.ltb_spec 0 (MainImp.winner r)) as [Hw | Hw].
  - destruct (Z.lt_ge_cases (MainImp.high_score h) (MainImp.cards_played r)).
    + rewrite collect_improving by auto. cbn [MainImp.high_score]. lia.
    + rewrite collect_not_improving by lia. cbn [MainImp.high_score]. lia.
  - rewrite collect_not_improving by lia. reflexivity.
Qed.

Lemma best_recorded_cons (r : MainImp.result) (rs : list MainImp.result) :
  best_recorded (r :: rs) =
  if 0 <? MainImp.winner r
  then Z.max (MainImp.cards_played r) (best_recorded rs)
  else best_recorded rs.
Proof. reflexivity. Qed.

Lemma max_moves_of_cons (r : MainImp.result) (rs : list MainImp.result) :
  max_moves_of (r :: rs) =
  Z.max (MainImp.cards_played r) (max_moves_of rs).
Proof. reflexivity. Qed.

Lemma best_recorded_nonneg (rs : list MainImp.result) :
  0 <= best_recorded rs.
Proof.
  induction rs as [|r rs IH]; [cbn; lia|].
  rewrite best_recorded_cons. destruct (0 <? MainImp.winner r); lia.
Qed.

Lemma fold_collect_high_score (rs : list MainImp.result) (h : MainImp.harness) :
  0 <= MainImp.high_score h ->
  MainImp.high_score (fold_left MainImp.collect rs h) =
  Z.max (MainImp.high_score h) (best_recorded rs).
Proof.
  revert h. induction rs as [|r rs IH]; intros h Hh.
  - cbn [fold_left]. change (best_recorded []) with 0. lia.
  - cbn [fold_left]. pose proof (collect_high_score h r) as Hc.
    rewrite IH, best_recorded_cons, Hc.
    + pose proof (best_recorded_nonneg rs).
      destruct (0 <? MainImp.winner r); lia.
    + rewrite Hc. destruct (0 <? MainImp.winner r); lia.
Qed.

Lemma fold_collect_games_completed (rs : list MainImp.result) (h : MainImp.harness) :
  MainImp.games_completed (fold_left MainImp.collect rs h) =
  MainImp.games_completed h + Z.of_nat (length rs).
Proof.
  revert h. induction rs as [|r rs IH]; intros h; cbn [fold_left length].
  - lia.
  - rewrite IH. unfold MainImp.collect.
    destruct (MainImp.improves _ r); cbn; lia.
Qed.

Lemma best_recorded_perm (rs rs' : list MainImp.result) :
  Permutation rs rs' -> best_recorded rs = best_recorded rs'.
Proof.
  induction 1 as [|r rs rs' _ IH|r1 r2 rs|rs1 rs2 rs3 _ IH1 _ IH2];
    rewrite ?best_recorded_cons.
  - reflexivity.
  - now rewrite IH.
  - destruct (0 <? MainImp.winner r1), (0 <? MainImp.winner r2); lia.
  - congruence.
Qed.

Lemma best_recorded_all_winners (rs : list MainImp.result) :
  Forall (fun r => 0 < MainImp.winner r) rs ->
  best_recorded rs = max_moves_of rs.
Proof.
  induction 1 as [|r rs Hr _ IH]; [reflexivity|].
  rewrite best_recorded_cons, max_moves_of_cons.
  apply Z.ltb_lt in Hr. now rewrite Hr, IH.
Qed.

(** The sample cycle result is what the code returns on [deck_recur]. *)
Lemma cycled_result_is_returned :
  option_map snd (MainImp.run_game_simulation deck_recur) = Some cycled_result.
Proof. vm_compute. reflexivity. Qed.

(** C5 (amended).  The collecting loop replaces the running best, and
    appends exactly one line to the log, precisely when a result names a
    winner (winner > 0) and its move count strictly exceeds the running
    best; otherwise, ties and results without a winner included, best and
    log stay as they are.  After all results the best equals the maximum
    move count over the results that name a winner (0 if there is none),
    whatever the order of the results; when every result names a winner
    this is the maximum over all results. *)
Theorem high_score_aggregation :
  (forall (h : MainImp.harness) (r : MainImp.result),
      0 < MainImp.winner r /\ MainImp.high_score h < MainImp.cards_played r ->
      MainImp.high_score (MainImp.collect h r) = MainImp.cards_played r /\
      MainImp.file (MainImp.collect h r) = MainImp.file h ++ [line_of r]) /\
  (forall (h : MainImp.harness) (r : MainImp.result),
      ~ (0 < MainImp.winner r /\ MainImp.high_score h < MainImp.cards_played r) ->
      MainImp.high_score (MainImp.collect h r) = MainImp.high_score h /\
      MainImp.file (MainImp.collect h r) = MainImp.file h) /\
  (forall rs : list MainImp.result,
      MainImp.high_score (MainImp.collect_all rs) = best_recorded rs) /\
  (forall rs rs' : list MainImp.result,
      Permutation rs rs' ->
      MainImp.high_score (MainImp.collect_all rs) =
      MainImp.high_score (MainImp.collect_all rs')) /\
  (forall rs : list MainImp.result,
      Forall (fun r => 0 < MainImp.winner r) rs ->
      MainImp.high_score (MainImp.collect_all rs) = max_moves_of rs).
Proof.
  assert (Hall : forall rs,
             MainImp.high_score (MainImp.collect_all rs) = best_recorded rs).
  { intros rs. unfold MainImp.collect_all.
    rewrite fold_collect_high_score by (cbn; lia).
    pose proof (best_recorded_nonneg rs).
    change (MainImp.high_score MainImp.harness_init) with 0. lia. }
  split_all.
  - intros h r H. now rewrite collect_improving.
  - intros h r H. now rewrite collect_not_improving.
  - exact Hall.
  - intros rs rs' Hperm. rewrite !Hall. now apply best_recorded_perm.
  - intros rs Hrs. rewrite Hall. now apply best_recorded_all_winners.
Qed.

Lemma high_score_aggregation_witness :
  (MainImp.high_score (MainImp.collect MainImp.harness_init
                         (MainImp.mk_result 2 40 4 deck_A)) = 40) /\
  (MainImp.file (MainImp.collect (MainImp.mk_harness 40 1 [])
                   (MainImp.mk_result 1 40 3 deck_A)) = []) /\
  MainImp.high_score (MainImp.collect_all sample_results) = 90 /\
  MainImp.high_score (MainImp.collect_all sample_results) =
  MainImp.high_score (MainImp.collect_all (rev sample_results)) /\
  MainImp.high_score (MainImp.collect_all (tl sample_results)) = 90.
Proof.
  destruct high_score_aggregation as (Hup & Hkeep & Hbest & Hperm & Hwin).
  split_all.
  - apply (Hup MainImp.harness_init (MainImp.mk_result 2 40 4 deck_A)).
    cbn. lia.
  - apply (Hkeep (MainImp.mk_harness 40 1 []) (MainImp.mk_result 1 40 3 deck_A)).
    cbn. lia.
  - rewrite Hbest. reflexivity.
  - apply Hperm. apply Permutation_rev.
  - rewrite Hwin; [reflexivity|].
    repeat constructor; cbn; lia.
Defined.

(** C5, as stated, fails on a result without a winner: the result of the
    run on [deck_recur] has 56 moves, more than the running best 0, yet the
    best stays 0 and no line is written; the final best is not the maximum
    move count. *)
Lemma cycled_result_not_recorded :
  MainImp.high_score MainImp.harness_init < MainImp.cards_played cycled_result /\
  MainImp.collect MainImp.harness_init cycled_result = MainImp.mk_harness 0 1 [] /\
  MainImp.high_score (MainImp.collect_all [cycled_result]) <>
  max_moves_of [cycled_result].
Proof.
  split; [cbn; lia|]. split; [reflexivity|]. cbn. lia.
Qed.

(** ** Deck validation *)

(** The counting loop of [is_valid]: it stops on the first card outside
    0..4, otherwise slot [i] has grown by the number of cards of rank [i]. *)
Lemma count_cards_spec (cs : list Z) (counts : list Z) :
  match count_cards cs counts with
  | None => ~ Forall (fun c => 0 <= c <= 4) cs
  | Some counts' =>
      Forall (fun c => 0 <= c <= 4) cs /\
      forall i : nat,
        counts' !! i =
        (fun v => v + Z.of_nat (count_occ Z.eq_dec cs (Z.of_nat i))) <$> counts !! i
  end.
Proof.
  revert counts. induction cs as [|card cs IH]; intros counts; cbn [count_cards].
  - split; [constructor|]. intros i. cbn.
    destruct (counts !! i) as [v|]; cbn; [f_equal; lia | reflexivity].
  - destruct ((card <? 0) || (4 <? card)) eqn:Hrange.
    + intros Hall. apply Forall_cons in Hall as [Hc _].
      apply orb_true_iff in Hrange as [H | H]; apply Z.ltb_lt in H; lia.
    + apply orb_false_iff in Hrange as [H0 H4].
      apply Z.ltb_ge in H0, H4.
      specialize (IH (alter Z.succ (Z.to_nat card) counts)).
      destruct (count_cards cs _) as [counts'|].
      * destruct IH as [Hall Hcounts]. split; [constructor; [lia | exact Hall]|].
        intros i. rewrite Hcounts.
        destruct (decide (i = Z.to_nat card)) as [-> | Hne].
        -- rewrite list_lookup_alter_eq, Z2Nat.id by lia.
           rewrite count_occ_cons_eq by reflexivity.
           destruct (counts !! Z.to_nat card); cbn; [f_equal; lia | reflexivity].
        -- rewrite list_lookup_alter_ne by congruence.
           rewrite count_occ_cons_neq by lia. reflexivity.
      * intros Hall. apply Forall_cons in Hall as [_ Hall]. contradiction.
Qed.

Lemma is_valid_iff (dk : deck) :
  is_valid dk = true <->
  length (cards dk) = 52%nat /\ ranks_ok dk /\
  (forall r, face_rank r -> occurrences r dk = 4%nat).
Proof.
  unfold is_valid, ranks_ok, occurrences, face_rank.
  pose proof (count_cards_spec (cards dk) (replicate 5 0)) as Hspec.
  destruct (count_cards (cards dk) (replicate 5 0)) as [counts|].
  - destruct Hspec as [Hall Hcounts].
    assert (Hface : forall i : nat, (1 <= i <= 4)%nat ->
               (bool_decide (counts !! i = Some 4) = true <->
                count_occ Z.eq_dec (cards dk) (Z.of_nat i) = 4%nat)).
    { intros i Hi. rewrite bool_decide_eq_true, Hcounts.
      assert (Hi0 : replicate 5 0 !! i = Some 0).
      { apply lookup_replicate_2. lia. }
      rewrite Hi0. cbn. split; [intros [= E]; lia | intros ->; reflexivity]. }
    cbn [forallb].
    split.
    + intros H.
      destruct (bool_decide (counts !! 1%nat = Some 4)) eqn:E1; [|discriminate].
      destruct (bool_decide (counts !! 2%nat = Some 4)) eqn:E2; [|discriminate].
      destruct (bool_decide (counts !! 3%nat = Some 4)) eqn:E3; [|discriminate].
      destruct (bool_decide (counts !! 4%nat = Some 4)) eqn:E4; [|discriminate].
      cbn in H. apply Z.eqb_eq in H. unfold size in H.
      apply Hface in E1, E2, E3, E4; try lia.
      split; [lia|]. split; [exact Hall|].
      intros r Hr.
      assert (Hcases : r = Z.of_nat 1 \/ r = Z.of_nat 2 \/
                       r = Z.of_nat 3 \/ r = Z.of_nat 4) by lia.
      destruct Hcases as [-> | [-> | [-> | ->]]]; assumption.
    + intros (Hlen & _ & Hocc).
      assert (Hb : forall i : nat, (1 <= i <= 4)%nat ->
                 bool_decide (counts !! i = Some 4) = true).
      { intros i Hi. apply Hface; [exact Hi|]. apply Hocc. lia. }
      rewrite !Hb by lia. cbn. rewrite Hlen. reflexivity.
  - split; [discriminate|]. intros (_ & Hall & _). contradiction.
Qed.

(** C8 (amended).  [is_valid] returns true if and only if the deck has
    exactly 52 cards, every card is a rank 0..4, and each of the ranks 1, 2,
    3 and 4 occurs exactly 4 times; so changing one card of a valid deck such
    that some face rank occurs 3 or 5 times makes it return false. *)
Theorem is_valid_spec :
  (forall dk : deck,
      is_valid dk = true <->
      length (cards dk) = 52%nat /\ ranks_ok dk /\
      (forall r, face_rank r -> occurrences r dk = 4%nat)) /\
  (forall (dk : deck) (i : nat) (v r : Z),
      is_valid dk = true ->
      face_rank r ->
      occurrences r (mk_deck (<[i := v]> (cards dk))) = 3%nat \/
      occurrences r (mk_deck (<[i := v]> (cards dk))) = 5%nat ->
      is_valid (mk_deck (<[i := v]> (cards dk))) = false).
Proof.
  split; [exact is_valid_iff|].
  intros dk i v r _ Hr Hocc.
  destruct (is_valid (mk_deck (<[i := v]> (cards dk)))) eqn:Hvalid; [|reflexivity].
  apply is_valid_iff in Hvalid as (_ & _ & Hfour).
  specialize (Hfour r Hr). lia.
Qed.

Lemma is_valid_spec_witness :
  (length (cards deck_recur) = 52%nat /\ ranks_ok deck_recur /\
   (forall r, face_rank r -> occurrences r deck_recur = 4%nat)) /\
  is_valid (mk_deck (<[0%nat := 1]> (cards deck_recur))) = false /\
  is_valid (mk_deck (<[1%nat := 0]> (cards deck_recur))) = false.
Proof.
  destruct is_valid_spec as [Hiff Hmut].
  split; [apply Hiff; vm_compute; reflexivity|].
  split.
  - apply (Hmut deck_recur 0%nat 1 1);
      [vm_compute; reflexivity | unfold face_rank; lia | right; vm_compute; reflexivity].
  - apply (Hmut deck_recur 1%nat 0 1);
      [vm_compute; reflexivity | unfold face_rank; lia | left; vm_compute; reflexivity].
Defined.

(** C8, as stated, fails on a deck with a card outside 0..4: [deck_stray]
    has 52 cards and four of each face rank, and [is_valid] rejects it. *)
Lemma is_valid_rejects_stray_card :
  length (cards deck_stray) = 52%nat /\
  (forall r, face_rank r -> occurrences r deck_stray = 4%nat) /\
  is_valid deck_stray = false.
Proof.
  split; [reflexivity|]. split; [|reflexivity].
  intros r Hr. unfold face_rank in Hr.
  assert (Hcases : r = 1 \/ r = 2 \/ r = 3 \/ r = 4) by lia.
  destruct Hcases as [-> | [-> | [-> | ->]]]; reflexivity.
Qed.

(** ** Serialisation *)

Lemma get_string_of_list_ascii (l : list ascii) (i : nat) :
  String.get i (string_of_list_ascii l) = l !! i.
Proof.
  revert i. induction l as [|c l IH]; intros [|i]; cbn; auto.
Qed.

Lemma length_string_of_list_ascii (l : list ascii) :
  String.length (string_of_list_ascii l) = length l.
Proof. induction l as [|c l IH]; cbn; [reflexivity | now rewrite IH]. Qed.

Lemma rank_of_char_of_rank (c : Z) :
  0 <= c <= 4 -> rank_of_char (char_of_rank c) = c.
Proof.
  intros Hc.
  assert (Hcases : c = 0 \/ c = 1 \/ c = 2 \/ c = 3 \/ c = 4) by lia.
  destruct Hcases as [-> | [-> | [-> | [-> | ->]]]]; reflexivity.
Qed.

(** The loop of [from_string] after [n] iterations: the first [n] slots
    hold the ranks of the first [n] characters, the others are untouched. *)
Lemma from_string_loop (l : list ascii) (init : list Z) (n : nat) :
  (n <= length l)%nat ->
  (n <= length init)%nat ->
  fold_left (from_string_step (string_of_list_ascii l)) (seq 0 n) init =
  map rank_of_char (take n l) ++ drop n init.
Proof.
  intros Hl Hinit. induction n as [|n IH].
  - cbn. now rewrite drop_0.
  - rewrite seq_S, fold_left_app, IH by lia. cbn [fold_left Nat.add].
    unfold from_string_step. rewrite get_string_of_list_ascii.
    destruct (lookup_lt_is_Some_2 l n ltac:(lia)) as [c Hc].
    destruct (lookup_lt_is_Some_2 init n ltac:(lia)) as [x Hx].
    rewrite Hc, (take_S_r l n c Hc), (drop_S init x n Hx).
    rewrite map_app, <- app_assoc. cbn [map app].
    assert (Hlen : length (map rank_of_char (take n l)) = n).
    { rewrite length_map, length_take. lia. }
    rewrite insert_app_r_alt by lia. now rewrite Hlen, Nat.sub_diag.
Qed.

(** C9.  Writing a deck of 52 ranks 0..4 with [operator<<] and reading the
    string back with [from_string] gives the deck, card for card. *)
Theorem from_string_to_string (dk : deck) :
  length (cards dk) = 52%nat ->
  ranks_ok dk ->
  String.length (to_string dk) = 52%nat /\
  from_string (to_string dk) = dk.
Proof.
  intros Hlen Hranks. unfold to_string.
  assert (Hslen : String.length (string_of_list_ascii (map char_of_rank (cards dk)))
                  = 52%nat).
  { now rewrite length_string_of_list_ascii, length_map. }
  split; [exact Hslen|].
  unfold from_string. rewrite Hslen.
  change (Nat.min 52 (length (replicate (Z.to_nat size) 0))) with 52%nat.
  rewrite from_string_loop.
  - rewrite take_ge by (rewrite length_map; lia).
    rewrite drop_ge by (rewrite length_replicate; unfold size; lia).
    rewrite app_nil_r, map_map. destruct dk as [cs]. cbn [cards] in *. f_equal.
    unfold ranks_ok in Hranks. cbn [cards] in Hranks. clear Hlen Hslen.
    induction Hranks as [|c cs Hc _ IH]; cbn [map]; [reflexivity|].
    now rewrite rank_of_char_of_rank, IH.
  - rewrite length_map. lia.
  - rewrite length_replicate. unfold size. lia.
Qed.

Lemma from_string_to_string_witness :
  length (cards deck_recur) = 52%nat /\
  to_string deck_recur =
    "-J-----QQ-QK-K----J--AJ---------K-JA----K------A-Q-A"%string /\
  from_string (to_string deck_recur) = deck_recur.
Proof.
  split; [reflexivity|]. split; [vm_compute; reflexivity|].
  apply (from_string_to_string deck_recur); [reflexivity|].
  apply (proj1 (proj2 (proj1 (is_valid_iff deck_recur) ltac:(vm_compute; reflexivity)))).
Defined.

(** * Further properties of the code *)

(** ** Parsing and printing decks *)

Lemma list_ascii_of_string_app (s t : string) :
  list_ascii_of_string (s ++ t)%string =
  list_ascii_of_string s ++ list_ascii_of_string t.
Proof. induction s as [|c s IH]; simpl; [reflexivity | now rewrite IH]. Qed.

Lemma rank_of_char_range (c : ascii) : 0 <= rank_of_char c <= 4.
Proof.
  unfold rank_of_char.
  repeat match goal with |- context [if ?b then _ else _] => destruct b end; lia.
Qed.

(** [from_string] in closed form, on the characters of the string. *)
Lemma from_string_of_list (l : list ascii) :
  cards (from_string (string_of_list_ascii l)) =
  map rank_of_char (take 52 l) ++ replicate (52 - length (take 52 l)) 0.
Proof.
  unfold from_string. cbn [cards].
  rewrite length_string_of_list_ascii, length_replicate.
  change (Z.to_nat size) with 52%nat.
  rewrite from_string_loop by (rewrite ?length_replicate; lia).
  rewrite drop_replicate, length_take. f_equal.
  - destruct (Nat.le_ge_cases (length l) 52) as [Hle | Hge].
    + rewrite Nat.min_l by lia. now rewrite !take_ge by lia.
    + now rewrite Nat.min_r by lia.
  - f_equal. lia.
Qed.

Lemma from_string_closed (str : string) :
  cards (from_string str) =
  map rank_of_char (parsed_chars str) ++
  replicate (52 - length (parsed_chars str)) 0.
Proof.
  rewrite <- (string_of_list_ascii_of_string str) at 1.
  apply from_string_of_list.
Qed.

Lemma from_string_length (str : string) :
  length (cards (from_string str)) = 52%nat.
Proof.
  rewrite from_string_closed, length_app, length_map, length_replicate.
  unfold parsed_chars. rewrite length_take. change (Z.to_nat size) with 52%nat. lia.
Qed.

Lemma from_string_ranks (str : string) :
  Forall (fun c => 0 <= c <= 4) (cards (from_string str)).
Proof.
  rewrite from_string_closed. apply Forall_app. split.
  - apply Forall_map, Forall_forall. intros c _. apply rank_of_char_range.
  - apply Forall_replicate. lia.
Qed.

(** X1.  [from_string] never fails and never yields a malformed deck:
    whatever the string, the deck has 52 cards and every card is a rank
    0..4; the empty string gives the deck of 52 plain cards that the
    default constructor builds. *)
Theorem from_string_shape (str : string) :
  length (cards (from_string str)) = 52%nat /\
  ranks_ok (from_string str) /\
  from_string "" = empty_deck.
Proof.
  split; [apply from_string_length|].
  split; [apply from_string_ranks | reflexivity].
Qed.

Lemma map_rank_plain (t : list ascii) :
  Forall (fun c => rank_of_char c = 0) t ->
  map rank_of_char t = replicate (length t) 0.
Proof.
  induction 1 as [|c t Hc _ IH]; cbn; [reflexivity | now rewrite Hc, IH].
Qed.

(** X2.  [from_string] reads at most 52 characters and pads with plain
    cards: characters appended behind the 52nd change nothing, and neither
    do appended characters that are no face letters, wherever they land. *)
Theorem from_string_ignores_tail (str tail : string) :
  (52 <= String.length str)%nat \/
  Forall (fun c => rank_of_char c = 0) (list_ascii_of_string tail) ->
  from_string (str ++ tail) = from_string str.
Proof.
  intros H.
  assert (E : cards (from_string (str ++ tail)) = cards (from_string str)).
  { rewrite !from_string_closed. unfold parsed_chars.
    change (Z.to_nat size) with 52%nat.
    rewrite list_ascii_of_string_app.
    set (l := list_ascii_of_string str). set (t := list_ascii_of_string tail).
    assert (Hlen : length l = String.length str).
    { subst l. rewrite <- (length_string_of_list_ascii (list_ascii_of_string str)).
      now rewrite string_of_list_ascii_of_string. }
    destruct (Nat.le_ge_cases 52 (length l)) as [Hlong | Hshort].
    - now rewrite take_app_le by lia.
    - destruct H as [H | H]; [rewrite take_app_le by lia; reflexivity|].
      fold t in H.
      rewrite take_app_ge, (take_ge l) by lia.
      rewrite map_app, <- app_assoc. f_equal.
      rewrite map_rank_plain by (now apply Forall_take).
      rewrite <- replicate_add. f_equal.
      rewrite length_app, !length_take. lia. }
  destruct (from_string (str ++ tail)), (from_string str). cbn in E. now subst.
Qed.

Lemma from_string_ignores_tail_witness :
  from_string (to_string deck_recur ++ "JJJJ") = from_string (to_string deck_recur) /\
  from_string ("JQKA" ++ "--x-") = from_string "JQKA".
Proof.
  split.
  - apply from_string_ignores_tail. left. vm_compute. lia.
  - apply from_string_ignores_tail. right. vm_compute. repeat constructor.
Defined.

Lemma char_of_rank_of_char (c : ascii) :
  deck_letter c -> char_of_rank (rank_of_char c) = c.
Proof. intros [-> | [-> | [-> | [-> | ->]]]]; reflexivity. Qed.

Lemma map_char_of_rank_of_char (l : list ascii) :
  Forall deck_letter l ->
  map (fun c => char_of_rank (rank_of_char c)) l = l.
Proof.
  induction 1 as [|c l Hc _ IH]; cbn [map]; [reflexivity|].
  now rewrite char_of_rank_of_char, IH.
Qed.

Lemma length_list_ascii_of_string (str : string) :
  length (list_ascii_of_string str) = String.length str.
Proof.
  rewrite <- (length_string_of_list_ascii (list_ascii_of_string str)).
  now rewrite string_of_list_ascii_of_string.
Qed.

(** X3.  The round trip in the other direction: a string of exactly 52
    characters over the five letters is printed back unchanged by
    [operator<<] after [from_string]. *)
Theorem to_string_from_string (str : string) :
  String.length str = 52%nat ->
  Forall deck_letter (list_ascii_of_string str) ->
  to_string (from_string str) = str.
Proof.
  intros Hlen Hletters. unfold to_string.
  rewrite from_string_closed. unfold parsed_chars.
  change (Z.to_nat size) with 52%nat.
  pose proof (length_list_ascii_of_string str) as Hl.
  rewrite take_ge by lia. rewrite Hl, Hlen. cbn [Nat.sub replicate].
  rewrite app_nil_r, map_map, map_char_of_rank_of_char by assumption.
  apply string_of_list_ascii_of_string.
Qed.

Lemma to_string_from_string_witness :
  to_string (from_string "-J-----QQ-QK-K----J--AJ---------K-JA----K------A-Q-A") =
  "-J-----QQ-QK-K----J--AJ---------K-JA----K------A-Q-A"%string.
Proof.
  apply to_string_from_string; [reflexivity|].
  vm_compute.
  repeat (constructor;
          [first [ left; reflexivity
                 | right; left; reflexivity
                 | right; right; left; reflexivity
                 | right; right; right; left; reflexivity
                 | right; right; right; right; reflexivity ] |]).
  constructor.
Defined.

(** ** Validation *)

Lemma count_occ_map_letter (r : Z) (ch : ascii) (l : list ascii) :
  (forall c, rank_of_char c = r <-> c = ch) ->
  count_occ Z.eq_dec (map rank_of_char l) r = count_occ ascii_dec l ch.
Proof.
  intros Hr. induction l as [|c l IH]; [reflexivity|]. cbn [map].
  destruct (ascii_dec c ch) as [-> | Hne].
  - rewrite (count_occ_cons_eq Z.eq_dec) by (now apply Hr).
    rewrite (count_occ_cons_eq ascii_dec) by reflexivity. now rewrite IH.
  - rewrite !count_occ_cons_neq; [exact IH | exact Hne |].
    intros E. now apply Hr in E.
Qed.

Lemma count_occ_replicate_other (n : nat) (x r : Z) :
  x <> r -> count_occ Z.eq_dec (replicate n x) r = 0%nat.
Proof.
  intros Hne. induction n as [|n IH]; [reflexivity|].
  cbn [replicate]. now rewrite count_occ_cons_neq.
Qed.

Lemma rank_of_char_letter (c : ascii) :
  (rank_of_char c = 1 <-> c = "J"%char) /\
  (rank_of_char c = 2 <-> c = "Q"%char) /\
  (rank_of_char c = 3 <-> c = "K"%char) /\
  (rank_of_char c = 4 <-> c = "A"%char).
Proof.
  unfold rank_of_char.
  destruct (Ascii.eqb_spec c "J") as [-> | HJ]; [repeat split; easy|].
  destruct (Ascii.eqb_spec c "Q") as [-> | HQ]; [repeat split; easy|].
  destruct (Ascii.eqb_spec c "K") as [-> | HK]; [repeat split; easy|].
  destruct (Ascii.eqb_spec c "A") as [-> | HA]; [repeat split; easy|].
  repeat split; intros; try lia; contradiction.
Qed.

(** The face cards of a parsed deck are the face letters of the string. *)
Lemma occurrences_from_string (str : string) (r : Z) (ch : ascii) :
  r <> 0 ->
  (forall c, rank_of_char c = r <-> c = ch) ->
  occurrences r (from_string str) = count_occ ascii_dec (parsed_chars str) ch.
Proof.
  intros Hr Hch. unfold occurrences. rewrite from_string_closed, count_occ_app.
  rewrite (count_occ_map_letter r ch) by assumption.
  rewrite count_occ_replicate_other by congruence. lia.
Qed.

Lemma is_valid_from_string (str : string) :
  is_valid (from_string str) = true <-> four_of_each_letter str.
Proof.
  rewrite is_valid_iff.
  pose proof (from_string_length str) as Hlen.
  pose proof (from_string_ranks str) as Hranks.
  unfold four_of_each_letter, face_rank. split.
  - intros (_ & _ & Hocc) c Hc.
    destruct Hc as [-> | [-> | [-> | ->]]].
    + rewrite <- (occurrences_from_string str 1); [apply Hocc; lia | lia |].
      intros c. apply rank_of_char_letter.
    + rewrite <- (occurrences_from_string str 2); [apply Hocc; lia | lia |].
      intros c. apply rank_of_char_letter.
    + rewrite <- (occurrences_from_string str 3); [apply Hocc; lia | lia |].
      intros c. apply rank_of_char_letter.
    + rewrite <- (occurrences_from_string str 4); [apply Hocc; lia | lia |].
      intros c. apply rank_of_char_letter.
  - intros Hfour. split; [exact Hlen|]. split; [exact Hranks|].
    intros r Hr.
    assert (Hcases : r = 1 \/ r = 2 \/ r = 3 \/ r = 4) by lia.
    destruct Hcases as [-> | [-> | [-> | ->]]].
    + rewrite (occurrences_from_string str 1 "J"); [apply Hfour; auto | lia |].
      intros c. apply rank_of_char_letter.
    + rewrite (occurrences_from_string str 2 "Q"); [apply Hfour; auto | lia |].
      intros c. apply rank_of_char_letter.
    + rewrite (occurrences_from_string str 3 "K"); [apply Hfour; auto | lia |].
      intros c. apply rank_of_char_letter.
    + rewrite (occurrences_from_string str 4 "A"); [apply Hfour; auto | lia |].
      intros c. apply rank_of_char_letter.
Qed.

(** X4.  [main] of test-suite.cpp always comes to an end, and it accepts a
    deck string exactly when each of the letters J, Q, K and A occurs four
    times among its first 52 characters: then it reports the outcome of the
    game, otherwise it takes the error exit.  Other characters, and a
    length below 52, do not matter. *)
Theorem main_accepts_four_of_each (deck_str : string) :
  (four_of_each_letter deck_str ->
   exists r : TestSuite.result,
     TestSuite.main deck_str =
     Some (TestSuite.game_results (TestSuite.classify r) r)) /\
  (~ four_of_each_letter deck_str ->
   TestSuite.main deck_str = Some TestSuite.invalid_deck).
Proof.
  unfold TestSuite.main. split; intros H.
  - apply is_valid_from_string in H. rewrite H. cbn [negb].
    unfold TestSuite.run.
    destruct (test_suite_play_returns
                (start (new_game (from_string deck_str) 1000000)))
      as (g' & e & Hplay & _).
    rewrite Hplay. eauto.
  - rewrite <- is_valid_from_string in H. apply not_true_is_false in H.
    now rewrite H.
Qed.

Lemma main_accepts_four_of_each_witness :
  (exists r : TestSuite.result,
      TestSuite.main short_deck_string =
      Some (TestSuite.game_results (TestSuite.classify r) r)) /\
  TestSuite.main "JJJJQQQQKKKKAAA" = Some TestSuite.invalid_deck.
Proof.
  split.
  - apply (proj1 (main_accepts_four_of_each short_deck_string)).
    intros c [-> | [-> | [-> | ->]]]; vm_compute; reflexivity.
  - apply (proj2 (main_accepts_four_of_each "JJJJQQQQKKKKAAA")).
    intros H. specialize (H "A"%char ltac:(auto)). vm_compute in H. discriminate H.
Defined.

Lemma count_ranks_sum (cs : list Z) :
  Forall (fun c => 0 <= c <= 4) cs ->
  (count_occ Z.eq_dec cs 0%Z + count_occ Z.eq_dec cs 1%Z +
   count_occ Z.eq_dec cs 2%Z + count_occ Z.eq_dec cs 3%Z +
   count_occ Z.eq_dec cs 4%Z = length cs)%nat.
Proof.
  induction 1 as [|c cs Hc _ IH]; [reflexivity|].
  assert (Hcases : c = 0 \/ c = 1 \/ c = 2 \/ c = 3 \/ c = 4) by lia.
  destruct Hcases as [-> | [-> | [-> | [-> | ->]]]]; cbn [length];
    repeat first [ rewrite count_occ_cons_eq by reflexivity
                 | rewrite count_occ_cons_neq by lia ]; lia.
Qed.

(** X5.  The count of plain cards is not checked by [is_valid] but follows
    from what it checks: a deck it accepts has exactly 36 cards of rank 0
    beside the 16 face cards. *)
Theorem valid_deck_has_36_plain_cards (dk : deck) :
  is_valid dk = true -> occurrences 0 dk = 36%nat.
Proof.
  intros H. apply is_valid_iff in H as (Hlen & Hranks & Hocc).
  pose proof (count_ranks_sum (cards dk) Hranks) as Hsum.
  pose proof (Hocc 1 ltac:(unfold face_rank; lia)) as H1.
  pose proof (Hocc 2 ltac:(unfold face_rank; lia)) as H2.
  pose proof (Hocc 3 ltac:(unfold face_rank; lia)) as H3.
  pose proof (Hocc 4 ltac:(unfold face_rank; lia)) as H4.
  unfold occurrences in *. lia.
Qed.

Lemma valid_deck_has_36_plain_cards_witness : occurrences 0 deck_recur = 36%nat.
Proof. apply valid_deck_has_36_plain_cards. vm_compute. reflexivity. Defined.

(** ** Shuffling *)

Lemma pick_empty_slot (cs : list Z) (draws : list nat) (pos : nat) (rest : list nat) :
  pick_empty cs draws = Some (pos, rest) -> cs !! pos = Some 0.
Proof.
  induction draws as [|p draws IH]; cbn [pick_empty]; [discriminate|].
  destruct (cs !! p) as [c|] eqn:Hp; [|discriminate].
  destruct (Z.eqb_spec c 0) as [-> | Hc].
  - intros [= <- <-]. exact Hp.
  - exact IH.
Qed.

(** Writing a face card into an empty slot adds one card of that rank and
    leaves the other face ranks alone. *)
Lemma count_occ_insert_empty (cs : list Z) (pos : nat) (card r : Z) :
  cs !! pos = Some 0 ->
  card <> 0 ->
  r <> 0 ->
  count_occ Z.eq_dec (<[pos := card]> cs) r =
  (count_occ Z.eq_dec cs r + (if Z.eq_dec card r then 1 else 0))%nat.
Proof.
  intros Hpos Hcard Hr. revert pos Hpos.
  induction cs as [|c cs IH]; intros [|pos] Hpos; try discriminate.
  - cbn in Hpos. injection Hpos as ->. cbn [insert list_insert].
    rewrite (count_occ_cons_neq Z.eq_dec cs (x:=0) (y:=r)) by congruence.
    destruct (Z.eq_dec card r) as [E | E].
    + rewrite count_occ_cons_eq by assumption. lia.
    + rewrite count_occ_cons_neq by assumption. lia.
  - cbn in Hpos. cbn [insert list_insert].
    change (list_insert pos card cs) with (<[pos := card]> cs).
    destruct (Z.eq_dec c r) as [E | E].
    + rewrite !count_occ_cons_eq by assumption. rewrite IH by assumption. lia.
    + rewrite !count_occ_cons_neq by assumption. now apply IH.
Qed.

(** What one placement keeps and changes. *)
Lemma place_spec (card : Z) (st st' : list Z * list nat) :
  place card st = Some st' ->
  1 <= card <= 4 ->
  length (fst st') = length (fst st) /\
  (Forall (fun c => 0 <= c <= 4) (fst st) -> Forall (fun c => 0 <= c <= 4) (fst st')) /\
  (forall r, r <> 0 ->
     count_occ Z.eq_dec (fst st') r =
     (count_occ Z.eq_dec (fst st) r + (if Z.eq_dec card r then 1 else 0))%nat).
Proof.
  unfold place. destruct (pick_empty (fst st) (snd st)) as [[pos rest]|] eqn:Hpick;
    [|discriminate].
  intros [= <-] Hcard. cbn [fst]. apply pick_empty_slot in Hpick.
  split; [apply length_insert|]. split.
  - intros Hall. apply Forall_insert; [exact Hall | lia].
  - intros r Hr. apply count_occ_insert_empty; [exact Hpick | lia | exact Hr].
Qed.

Lemma place_n_spec (n : nat) (card : Z) (st st' : list Z * list nat) :
  place_n n card st = Some st' ->
  1 <= card <= 4 ->
  length (fst st') = length (fst st) /\
  (Forall (fun c => 0 <= c <= 4) (fst st) -> Forall (fun c => 0 <= c <= 4) (fst st')) /\
  (forall r, r <> 0 ->
     count_occ Z.eq_dec (fst st') r =
     (count_occ Z.eq_dec (fst st) r + (if Z.eq_dec card r then n else 0))%nat).
Proof.
  intros H Hcard. revert st H.
  induction n as [|n IH]; intros st; cbn [place_n].
  - intros [= <-]. split; [reflexivity|]. split; [auto|].
    intros r _. destruct (Z.eq_dec card r); lia.
  - destruct (place card st) as [st1|] eqn:Hplace; [|discriminate].
    intros H. apply IH in H as (Hlen & Hall & Hcount).
    apply place_spec in Hplace as (Hlen1 & Hall1 & Hcount1); [|exact Hcard].
    split; [congruence|]. split; [auto|].
    intros r Hr. rewrite Hcount, Hcount1 by exact Hr.
    destruct (Z.eq_dec card r); lia.
Qed.

(** X6.  Whenever [shuffle] comes to an end, whatever positions the
    generator produced, the deck passes [is_valid]: 52 cards, four of each
    face rank, 36 plain cards. *)
Theorem shuffle_valid (draws rest : list nat) (dk : deck) :
  shuffle draws = Some (dk, rest) -> is_valid dk = true.
Proof.
  unfold shuffle. cbn [fold_left].
  destruct (place_n 4 1 _) as [st1|] eqn:H1; [|discriminate].
  destruct (place_n 4 2 st1) as [st2|] eqn:H2; [|discriminate].
  destruct (place_n 4 3 st2) as [st3|] eqn:H3; [|discriminate].
  destruct (place_n 4 4 st3) as [[cs draws']|] eqn:H4; [|discriminate].
  intros [= <- <-].
  apply place_n_spec in H1 as (L1 & A1 & C1); [|lia].
  apply place_n_spec in H2 as (L2 & A2 & C2); [|lia].
  apply place_n_spec in H3 as (L3 & A3 & C3); [|lia].
  apply place_n_spec in H4 as (L4 & A4 & C4); [|lia].
  cbn [fst] in *.
  apply is_valid_iff. unfold ranks_ok, occurrences, face_rank. cbn [cards].
  split; [|split].
  - rewrite L4, L3, L2, L1. reflexivity.
  - apply A4, A3, A2, A1, Forall_replicate. lia.
  - intros r Hr. rewrite C4, C3, C2, C1 by lia.
    rewrite count_occ_replicate_other by lia.
    assert (Hcases : r = 1 \/ r = 2 \/ r = 3 \/ r = 4) by lia.
    destruct Hcases as [-> | [-> | [-> | ->]]]; reflexivity.
Qed.

Lemma shuffle_valid_witness :
  exists dk, shuffle sample_draws = Some (dk, [51%nat]) /\ is_valid dk = true.
Proof.
  eexists. split; [vm_compute; reflexivity|].
  apply (shuffle_valid sample_draws [51%nat]). vm_compute. reflexivity.
Defined.

(** ** More invariants of a run *)

(** Turns the boolean tests on integers among the hypotheses into
    propositions. *)
Ltac z_tests :=
  repeat match goal with
         | H : (_ <? _) = true |- _ => apply Z.ltb_lt in H
         | H : (_ <? _) = false |- _ => apply Z.ltb_ge in H
         | H : (_ =? _) = true |- _ => apply Z.eqb_eq in H
         | H : (_ =? _) = false |- _ => apply Z.eqb_neq in H
         end.

Lemma turn_all_cards (g : game) : Permutation (all_cards (turn g)) (all_cards g).
Proof. turn_cases g; unfold all_cards; cbn; solve_Permutation. Qed.

Lemma reachable_all_cards (g0 g : game) :
  reachable g0 g -> Permutation (all_cards g) (all_cards g0).
Proof.
  induction 1 as [|g Hg IH|g Hg IH]; [reflexivity|exact IH|].
  now rewrite turn_all_cards.
Qed.

Lemma start_all_cards (g : game) : all_cards (start g) = cards (d g).
Proof.
  unfold all_cards. cbn. now rewrite app_nil_r, take_drop.
Qed.

(** X7.  No card is lost, made or changed in a run: at every state the two
    hands and the pile together hold the cards of the deck, each as often
    as the deck does. *)
Theorem cards_are_permuted (g0 g : game) :
  reachable (start g0) g -> Permutation (all_cards g) (cards (d g0)).
Proof.
  intros H. apply reachable_all_cards in H.
  now rewrite start_all_cards in H.
Qed.

Lemma cards_are_permuted_witness :
  Permutation
    (all_cards (turns 57 (start (new_game deck_recur 1000000))))
    (cards deck_recur).
Proof.
  apply (cards_are_permuted (new_game deck_recur 1000000)), reachable_turns.
Defined.

Lemma turn_penalty_in_step (bound : Z) (g : game) :
  Forall (fun c => c <= bound) (all_cards g) ->
  penalty_in_step bound g ->
  penalty_in_step bound (turn g).
Proof.
  unfold penalty_in_step, all_cards.
  turn_cases g; cbn in *; intros Hall Hpen; try congruence; z_tests; try lia.
  all: try (apply Forall_cons in Hall as [Hc _]; lia).
  all: apply Forall_app in Hall as [_ Hall];
    apply Forall_cons in Hall as [Hc _]; lia.
Qed.

(** X8.  The penalty counter never runs away from the penalty flag: in a
    run on a deck of ranks 0..4 it is 0 while no penalty is pending and
    between 1 and 4 while one is; it is never negative. *)
Theorem penalty_counter_in_step (g0 g : game) :
  ranks_ok (d g0) ->
  reachable (start g0) g ->
  penalty_in_step 4 g.
Proof.
  intros Hranks Hreach.
  assert (Hbound : forall g', reachable (start g0) g' ->
                      Forall (fun c => c <= 4) (all_cards g')).
  { intros g' Hg'. apply reachable_all_cards in Hg'.
    rewrite Hg', start_all_cards.
    eapply Forall_impl; [exact Hranks|]. cbn. intros; lia. }
  induction Hreach as [|g Hg IH|g Hg IH].
  - reflexivity.
  - exact IH.
  - apply turn_penalty_in_step; auto.
Qed.

Lemma penalty_counter_in_step_witness :
  penalty_in_step 4 (turns 54 (start (new_game deck_recur 1000000))) /\
  remaining_penalties (turns 54 (start (new_game deck_recur 1000000))) = 1.
Proof.
  split; [|vm_compute; reflexivity].
  apply (penalty_counter_in_step (new_game deck_recur 1000000)).
  - apply (is_valid_iff deck_recur). vm_compute. reflexivity.
  - apply reachable_turns.
Defined.

Lemma turn_two_moves (g : game) :
  pile_holds_face g ->
  0 <= tricks g ->
  2 * tricks g + Z.of_nat (length (pile g)) <= cards_played_total g ->
  0 <= tricks (turn g) /\
  2 * tricks (turn g) + Z.of_nat (length (pile (turn g))) <=
  cards_played_total (turn g).
Proof.
  unfold pile_holds_face.
  turn_cases g; intros Hpile Htr H; rewrite ?length_app; cbn [length];
    try lia.
  all: destruct pl; [now specialize (Hpile eq_refl) | cbn [length] in *; lia].
Qed.

Lemma reachable_two_moves (g0 g : game) :
  pile_holds_face g0 ->
  0 <= tricks g0 ->
  2 * tricks g0 + Z.of_nat (length (pile g0)) <= cards_played_total g0 ->
  reachable g0 g ->
  0 <= tricks g /\
  2 * tricks g + Z.of_nat (length (pile g)) <= cards_played_total g.
Proof.
  intros Hface Htr0 Htwo0 Hreach.
  pose proof (reachable_pile_holds_face g0 Hface) as Hpile.
  induction Hreach as [|g Hg IH|g Hg IH].
  - auto.
  - exact IH.
  - destruct IH as [Htr Htwo]. apply turn_two_moves; auto.
Qed.

(** X9.  A trick costs at least two moves, the face card and one penalty
    card: throughout a run twice the number of tricks, plus the cards on
    the pile, is at most the number of moves. *)
Theorem tricks_cost_two_moves (g0 g : game) :
  reachable (start g0) g ->
  0 <= tricks g /\
  2 * tricks g + Z.of_nat (length (pile g)) <= cards_played_total g.
Proof.
  apply reachable_two_moves.
  - apply start_pile_holds_face.
  - cbn. lia.
  - cbn. lia.
Qed.

Lemma tricks_cost_two_moves_witness :
  tricks (turns 56 (start (new_game deck_recur 1000000))) = 5 /\
  2 * tricks (turns 56 (start (new_game deck_recur 1000000))) +
  Z.of_nat (length (pile (turns 56 (start (new_game deck_recur 1000000))))) <=
  cards_played_total (turns 56 (start (new_game deck_recur 1000000))).
Proof.
  split; [vm_compute; reflexivity|].
  apply (tricks_cost_two_moves (new_game deck_recur 1000000)), reachable_turns.
Defined.

(** ** Starting again *)

Lemma reachable_deck_and_limit (g0 g : game) :
  reachable g0 g -> d g = d g0 /\ max_moves g = max_moves g0.
Proof.
  induction 1 as [|g Hg IH|g Hg IH]; [split; reflexivity|exact IH|].
  now rewrite turn_deck, turn_max_moves.
Qed.




(** ** The numbers [play] returns *)

(** X11.  [play] of test-suite.cpp never reports more moves than the move
    limit allows (none for a limit below 0) and at most one trick per two
    moves; a run reported as stopped by the limit has played exactly as
    many moves as the limit. *)
Theorem play_move_count (initial_deck : deck) (limit : Z) :
  exists (g' : game) (r : TestSuite.result),
    TestSuite.run initial_deck limit = Some (g', r) /\
    0 <= TestSuite.tricks_won r /\
    2 * TestSuite.tricks_won r <= TestSuite.moves_played r <= Z.max 0 limit /\
    (TestSuite.classify r = TestSuite.limit_reached ->
     TestSuite.moves_played r = Z.max 0 limit).
Proof.
  unfold TestSuite.run.
  destruct (test_suite_play_returns (start (new_game initial_deck limit)))
    as (g' & e & Hplay & Hloop).
  exists g', (TestSuite.report g' e). split; [exact Hplay|].
  destruct (play_loop_exit _ _ _ _ Hloop) as [Hreach Hexit].
  destruct (reachable_two_moves _ _ (start_pile_holds_face _)
              ltac:(cbn; lia) ltac:(cbn; lia) Hreach) as [Htr Htwo].
  destruct (play_loop_counters _ _ _ _ Hloop) as (_ & Hmax & Hlim);
    [cbn; lia | cbn; lia |].
  change (max_moves (start (new_game initial_deck limit))) with limit in Hlim.
  rewrite Hlim in Hmax.
  cbn [TestSuite.report TestSuite.tricks_won TestSuite.moves_played].
  split; [exact Htr|]. split; [lia|].
  intros Hclass. unfold TestSuite.classify in Hclass.
  destruct e; [|discriminate Hclass].
  apply keep_playing_false in Hexit as [Hover | [_ Hstop]].
  - destruct (report_winner_over g' exit_condition Hover) as [Hw | Hw];
      rewrite Hw in Hclass; discriminate Hclass.
  - rewrite Hlim in Hstop. lia.
Qed.

(** ** The visited set *)

Lemma set_seen_states_same (g : game) : set_seen_states g (seen_states g) = g.
Proof. now destruct g. Qed.

Lemma set_seen_states_twice (g : game) (s s' : gset hand_pair) :
  set_seen_states (set_seen_states g s) s' = set_seen_states g s'.
Proof. reflexivity. Qed.

(** [turn] neither reads nor writes the visited set. *)
Lemma turn_set_seen_states (g : game) (s : gset hand_pair) :
  turn (set_seen_states g s) = set_seen_states (turn g) s.
Proof.
  destruct g as [dk [i1 h1] [i2 h2] tot tr pl rem fa [] lim seen];
    unfold set_seen_states; cbn.
  - destruct h1 as [|card rest]; [now rewrite !turn_empty|].
    rewrite !turn_p1.
    destruct (0 <? card); [reflexivity|].
    destruct fa; [destruct (rem - 1 =? 0)|]; reflexivity.
  - destruct h2 as [|card rest]; [now rewrite !turn_empty|].
    rewrite !turn_p2.
    destruct (0 <? card); [reflexivity|].
    destruct fa; [destruct (rem - 1 =? 0)|]; reflexivity.
Qed.

Lemma turns_last (n : nat) (g : game) : turns (S n) g = turn (turns n g).
Proof. reflexivity. Qed.

Lemma turns_set_seen_states (n : nat) (g : game) (s : gset hand_pair) :
  turns n (set_seen_states g s) = set_seen_states (turns n g) s.
Proof.
  induction n as [|n IH]; [reflexivity|].
  now rewrite !turns_last, IH, turn_set_seen_states.
Qed.

Lemma state_of_set_seen_states (g : game) (s : gset hand_pair) :
  state_of (set_seen_states g s) = state_of g.
Proof. reflexivity. Qed.

Lemma keep_playing_set_seen_states (g : game) (s : gset hand_pair) :
  keep_playing (set_seen_states g s) = keep_playing g.
Proof. reflexivity. Qed.

Lemma turns_succ (n : nat) (g : game) : turns (S n) g = turns n (turn g).
Proof. unfold turns. apply Nat.iter_succ_r. Qed.

(** The loop of [play], iteration by iteration: it leaves after some [m]
    iterations in the state that [m] calls of [turn] give, has played [m]
    cards, and has added to the visited set the [m] hand pairs met before
    each of these turns, which were all new. *)
Lemma play_loop_trace (fuel : nat) (g g' : game) (e : loop_exit) :
  play_loop fuel g = Some (g', e) ->
  exists m : nat,
    g' = set_seen_states (turns m g) (seen_states g') /\
    cards_played_total g' = cards_played_total g + Z.of_nat m /\
    base.size (seen_states g') = (base.size (seen_states g) + m)%nat /\
    (forall x : hand_pair,
        x ∈ seen_states g' <->
        (x ∈ seen_states g \/
         exists i, (i < m)%nat /\ x = state_of (turns i g))) /\
    (forall k, (k < m)%nat ->
       keep_playing (turns k g) = true /\
       (state_of (turns k g) ∉ seen_states g) /\
       forall i, (i < k)%nat -> state_of (turns i g) <> state_of (turns k g)).
Proof.
  revert g. induction fuel as [|fuel IH]; intros g; cbn [play_loop].
  - destruct (keep_playing g); [discriminate|]. intros [= <- <-].
    exists 0%nat. split; [symmetry; apply set_seen_states_same|].
    split; [lia|]. split; [lia|]. split; [|intros; lia].
    intros x. split; [auto|]. intros [H | (i & Hi & _)]; [exact H | lia].
  - destruct (keep_playing g) eqn:Hkeep.
    2:{ intros [= <- <-].
        exists 0%nat. split; [symmetry; apply set_seen_states_same|].
        split; [lia|]. split; [lia|]. split; [|intros; lia].
        intros x. split; [auto|]. intros [H | (i & Hi & _)]; [exact H | lia]. }
    destruct (bool_decide (state_of g ∈ seen_states g)) eqn:Hseen.
    { intros [= <- <-].
      exists 0%nat. split; [symmetry; apply set_seen_states_same|].
      split; [lia|]. split; [lia|]. split; [|intros; lia].
      intros x. split; [auto|]. intros [H | (i & Hi & _)]; [exact H | lia]. }
    apply bool_decide_eq_false in Hseen.
    intros H. apply IH in H as (m & Hg' & Htot & Hsize & Hmem & Hnew).
    destruct (loop_body_counts g Hkeep) as [Hplayed _].
    assert (Hstep : forall k, turns k (turn (record_state g)) =
                           set_seen_states (turns (S k) g)
                             ({[state_of g]} ∪ seen_states g)).
    { intros k. unfold record_state.
      now rewrite turn_set_seen_states, turns_set_seen_states, turns_succ. }
    assert (Hseen1 : seen_states (turn (record_state g)) =
                     {[state_of g]} ∪ seen_states g).
    { unfold record_state. now rewrite turn_set_seen_states. }
    exists (S m). split; [|split; [|split; [|split]]].
    + rewrite Hg', Hstep. reflexivity.
    + rewrite Htot, Hplayed. lia.
    + rewrite Hsize, Hseen1, size_union, size_singleton; [lia|].
      apply disjoint_singleton_l. exact Hseen.
    + intros x. rewrite Hmem, Hseen1. split.
      * intros [Hx | (i & Hi & ->)].
        -- apply elem_of_union in Hx as [Hx | Hx]; [|auto].
           apply elem_of_singleton in Hx as ->.
           right. exists 0%nat. split; [lia | reflexivity].
        -- right. exists (S i). split; [lia|].
           now rewrite Hstep, state_of_set_seen_states.
      * intros [Hx | (i & Hi & ->)].
        { left. apply elem_of_union. now right. }
        destruct i as [|i].
        -- left. change (turns 0 g) with g.
           apply elem_of_union. left. now apply elem_of_singleton.
        -- right. exists i. split; [lia|].
           now rewrite Hstep, state_of_set_seen_states.
    + intros [|k] Hk.
      * change (turns 0 g) with g. split; [exact Hkeep|].
        split; [exact Hseen | intros; lia].
      * destruct (Hnew k ltac:(lia)) as (Hk1 & Hk2 & Hk3).
        rewrite Hstep, ?keep_playing_set_seen_states,
          ?state_of_set_seen_states in Hk1, Hk2.
        rewrite Hseen1 in Hk2.
        apply not_elem_of_union in Hk2 as [Hk2 Hk2'].
        apply not_elem_of_singleton in Hk2.
        split; [exact Hk1|]. split; [exact Hk2'|].
        intros [|i] Hi.
        -- change (turns 0 g) with g. intros E. apply Hk2. now symmetry.
        -- specialize (Hk3 i ltac:(lia)).
           now rewrite !Hstep, !state_of_set_seen_states in Hk3.
Qed.

(** X12.  The visited set costs one entry per move: when [play] returns,
    [seen_states] holds exactly as many hand pairs as cards were played. *)
Theorem seen_states_one_per_move (initial_deck : deck) (limit : Z) :
  exists (g' : game) (r : TestSuite.result),
    TestSuite.run initial_deck limit = Some (g', r) /\
    Z.of_nat (base.size (seen_states g')) = TestSuite.moves_played r.
Proof.
  unfold TestSuite.run.
  destruct (test_suite_play_returns (start (new_game initial_deck limit)))
    as (g' & e & Hplay & Hloop).
  exists g', (TestSuite.report g' e). split; [exact Hplay|].
  apply play_loop_trace in Hloop as (m & _ & Htot & Hsize & _).
  cbn [TestSuite.report TestSuite.moves_played].
  rewrite Htot, Hsize. cbn. rewrite size_empty. lia.
Qed.

(** X13.  What the cycle flag means.  [play] returns after some [m] moves
    in the state that [m] calls of [turn] give.  The hand pairs before the
    first [m] turns are pairwise different, so no recurrence among them went
    unnoticed; and the flag is set exactly when the loop would have gone on
    and the hand pair after [m] moves is the one met before an earlier
    turn. *)
Theorem cycled_means_hand_pair_recurred (initial_deck : deck) (limit : Z) :
  let g0 := start (new_game initial_deck limit) in
  exists (g' : game) (r : TestSuite.result) (m : nat),
    TestSuite.run initial_deck limit = Some (g', r) /\
    TestSuite.moves_played r = Z.of_nat m /\
    state_of g' = state_of (turns m g0) /\
    (forall i j, (i < j < m)%nat ->
       state_of (turns i g0) <> state_of (turns j g0)) /\
    (TestSuite.cycled r = true <->
     keep_playing (turns m g0) = true /\
     exists i, (i < m)%nat /\ state_of (turns i g0) = state_of (turns m g0)).
Proof.
  intros g0. unfold TestSuite.run. fold g0.
  destruct (test_suite_play_returns g0) as (g' & e & Hplay & Hloop).
  destruct (play_loop_exit _ _ _ _ Hloop) as [_ Hexit].
  apply play_loop_trace in Hloop as (m & Hg' & Htot & _ & Hmem & Hnew).
  exists g', (TestSuite.report g' e), m. split; [exact Hplay|].
  assert (Hstate : state_of g' = state_of (turns m g0)) by now rewrite Hg'.
  assert (Hkeep : keep_playing g' = keep_playing (turns m g0)) by now rewrite Hg'.
  split; [cbn [TestSuite.report TestSuite.moves_played]; rewrite Htot; cbn; lia|].
  split; [exact Hstate|]. split.
  - intros i j [Hij Hjm]. now apply (Hnew j Hjm).
  - destruct e; cbn [TestSuite.report TestSuite.cycled].
    + split; [discriminate|]. intros [Hk _]. congruence.
    + destruct Hexit as [Hk Hin]. split; [|reflexivity]. intros _.
      split; [congruence|].
      apply Hmem in Hin as [Hin | (i & Hi & E)]; [set_solver|].
      exists i. split; [exact Hi | congruence].
Qed.

(** ** Who wins *)

Lemma turn_active_nonempty (g : game) :
  hand (p1 g) <> [] -> hand (p2 g) <> [] -> hand (active (turn g)) <> [].
Proof.
  turn_cases g; unfold active; cbn; intros H1 H2; try assumption;
    intros E; apply app_eq_nil in E as [_ E];
    apply app_eq_nil in E as [_ E]; discriminate.
Qed.

Lemma play_loop_active_nonempty (fuel : nat) (g g' : game) (e : loop_exit) :
  play_loop fuel g = Some (g', e) ->
  hand (active g) <> [] ->
  hand (active g') <> [].
Proof.
  revert g. induction fuel as [|fuel IH]; intros g; cbn [play_loop].
  - destruct (keep_playing g); [discriminate|]. now intros [= <- <-].
  - destruct (keep_playing g) eqn:Hkeep; [|now intros [= <- <-]].
    destruct (bool_decide (state_of g ∈ seen_states g)); [now intros [= <- <-]|].
    intros H _. apply IH in H; [exact H|].
    apply keep_playing_hands in Hkeep as (H1 & H2 & _).
    now apply (turn_active_nonempty (record_state g)).
Qed.

(** X14.  On a finished game the two variants name the same winner.  When
    [play] stops with a hand empty, the active player is the one who still
    holds cards: the id that main-imp.cpp returns is the winner that
    test-suite.cpp works out from the empty hand, and the other player's
    hand is the empty one. *)
Theorem winners_agree (g : game) :
  id (p1 g) = 1 ->
  id (p2 g) = 2 ->
  hand (active g) <> [] ->
  exists (g' : game) (rm : MainImp.result) (rt : TestSuite.result),
    MainImp.play g = Some (g', rm) /\
    TestSuite.play g = Some (g', rt) /\
    (is_game_over g' = true ->
     MainImp.winner rm = TestSuite.winner rt /\
     MainImp.winner rm = id (active g') /\
     hand (active g') <> [] /\
     hand (waiting g') = []).
Proof.
  intros Hid1 Hid2 Hactive.
  destruct (main_imp_play_returns g) as (g' & e & Hm & Hloop).
  exists g', (MainImp.report g' e), (TestSuite.report g' e).
  split; [exact Hm|]. split.
  { unfold TestSuite.play. now rewrite Hloop. }
  intros Hover.
  destruct (play_loop_exit _ _ _ _ Hloop) as [Hreach Hexit].
  pose proof (play_loop_active_nonempty _ _ _ _ Hloop Hactive) as Hne.
  destruct (reachable_ids g g' Hreach) as [H1 H2].
  destruct e.
  2:{ destruct Hexit as [Hkeep _].
      apply keep_playing_true in Hkeep as [Hkeep _]. congruence. }
  unfold TestSuite.report, MainImp.report.
  cbn [TestSuite.winner MainImp.winner]. rewrite Hover.
  unfold is_game_over in Hover. unfold active, waiting in *.
  destruct (active_player g').
  - destruct (bool_decide_reflect (hand (p1 g') = [])) as [E | E];
      [contradiction|].
    cbn in Hover. apply bool_decide_eq_true in Hover.
    repeat split; try assumption. congruence.
  - destruct (bool_decide_reflect (hand (p1 g') = [])) as [E | E].
    + repeat split; try assumption. congruence.
    + cbn in Hover. apply bool_decide_eq_true in Hover. contradiction.
Qed.

Lemma winners_agree_witness :
  exists (g' : game) (rm : MainImp.result) (rt : TestSuite.result),
    MainImp.play (start (new_game deck_A 1000000)) = Some (g', rm) /\
    TestSuite.play (start (new_game deck_A 1000000)) = Some (g', rt) /\
    is_game_over g' = true /\
    MainImp.winner rm = TestSuite.winner rt /\
    TestSuite.winner rt = 2.
Proof.
  destruct (winners_agree (start (new_game deck_A 1000000)) eq_refl eq_refl)
    as (g' & rm & rt & Hm & Ht & Hwin).
  { vm_compute. discriminate. }
  exists g', rm, rt. split; [exact Hm|]. split; [exact Ht|].
  assert (E : option_map
                (fun out => (is_game_over (fst out), TestSuite.winner (snd out)))
                (TestSuite.play (start (new_game deck_A 1000000)))
              = Some (true, 2))
    by (vm_compute; reflexivity).
  rewrite Ht in E. cbn [option_map fst snd] in E. injection E as Hover Hw.
  split; [exact Hover|]. split; [apply (Hwin Hover) | exact Hw].
Defined.

(** ** Decks without face cards *)

(** With plain cards only, no penalty starts: every card played stays on
    the pile. *)
Lemma turn_plain_only (g : game) :
  Forall (fun c => c <= 0) (all_cards g) ->
  face_card_active g = false /\ tricks g = 0 /\
  Z.of_nat (length (pile g)) = cards_played_total g ->
  face_card_active (turn g) = false /\ tricks (turn g) = 0 /\
  Z.of_nat (length (pile (turn g))) = cards_played_total (turn g).
Proof.
  unfold all_cards.
  turn_cases g; cbn in *; intros Hall (Hfa & Htr & Hpile); try congruence;
    z_tests; rewrite ?length_app; cbn [length];
    try solve [split_all; first [assumption | reflexivity | lia]].
  - apply Forall_cons in Hall as [Hc _]. lia.
  - apply Forall_app in Hall as [_ Hall].
    apply Forall_cons in Hall as [Hc _]. lia.
Qed.

Lemma reachable_plain_only (g0 g : game) :
  all_plain (d g0) ->
  reachable (start g0) g ->
  face_card_active g = false /\ tricks g = 0 /\
  Z.of_nat (length (pile g)) = cards_played_total g.
Proof.
  intros Hplain Hreach.
  assert (Hcards : forall g', reachable (start g0) g' ->
                     Forall (fun c => c <= 0) (all_cards g')).
  { intros g' Hg'. apply reachable_all_cards in Hg'.
    now rewrite Hg', start_all_cards. }
  induction Hreach as [|g Hg IH|g Hg IH].
  - repeat split.
  - exact IH.
  - apply turn_plain_only; auto.
Qed.

Lemma turns_total_le (n : nat) (g : game) :
  cards_played_total (turns n g) <= cards_played_total g + Z.of_nat n.
Proof.
  induction n as [|n IH]; [cbn; lia|].
  rewrite turns_last.
  destruct (hand (active (turns n g))) eqn:Hh.
  - rewrite turn_empty by assumption. lia.
  - rewrite turn_plays_a_card by congruence. lia.
Qed.

(** With plain cards only, the hands shrink with every move: the hand pair
    after [m] moves was not met after fewer moves. *)
Lemma plain_hands_shrink (g0 g : game) (n m : nat) :
  all_plain (d g0) ->
  reachable (start g0) g ->
  cards_played_total g = Z.of_nat m ->
  (n < m)%nat ->
  state_of (turns n (start g0)) <> state_of g.
Proof.
  intros Hplain Hreach Htot Hnm E.
  pose proof (reachable_turns (start g0) n) as Hrn.
  destruct (reachable_plain_only g0 _ Hplain Hrn) as (_ & _ & Hpile_n).
  destruct (reachable_plain_only g0 _ Hplain Hreach) as (_ & _ & Hpile).
  pose proof (reachable_total_cards _ _ Hrn) as Hcount_n.
  pose proof (reachable_total_cards _ _ Hreach) as Hcount.
  pose proof (turns_total_le n (start g0)) as Hle.
  rewrite <- Hcount in Hcount_n. clear Hcount.
  unfold total_cards, state_of in *.
  injection E as E1 E2. rewrite E1, E2 in Hcount_n.
  change (cards_played_total (start g0)) with 0 in Hle.
  remember (turns n (start g0)) as gn. lia.
Qed.

(** X15.  A deck without face cards never starts a penalty: whatever the
    limit, [play] reports no trick and no cycle, and every card played is
    still on the pile when it returns. *)
Theorem plain_deck_no_trick_no_cycle (initial_deck : deck) (limit : Z) :
  all_plain initial_deck ->
  exists (g' : game) (r : TestSuite.result),
    TestSuite.run initial_deck limit = Some (g', r) /\
    TestSuite.tricks_won r = 0 /\
    TestSuite.cycled r = false /\
    Z.of_nat (length (pile g')) = TestSuite.moves_played r.
Proof.
  intros Hplain. unfold TestSuite.run.
  destruct (test_suite_play_returns (start (new_game initial_deck limit)))
    as (g' & e & Hplay & Hloop).
  exists g', (TestSuite.report g' e). split; [exact Hplay|].
  destruct (play_loop_exit _ _ _ _ Hloop) as [Hreach Hexit].
  destruct (reachable_plain_only (new_game initial_deck limit) g' Hplain Hreach)
    as (_ & Htr & Hpile).
  split; [exact Htr|]. split; [|exact Hpile].
  destruct e; [reflexivity|]. exfalso.
  destruct Hexit as [_ Hin].
  apply play_loop_trace in Hloop as (m & _ & Htot & _ & Hmem & _).
  apply Hmem in Hin as [Hin | (i & Hi & E)].
  - now apply not_elem_of_empty in Hin.
  - apply (plain_hands_shrink (new_game initial_deck limit) g' i m Hplain Hreach);
      [exact Htot | exact Hi | now symmetry].
Qed.

Lemma plain_deck_no_trick_no_cycle_witness :
  all_plain (from_string "") /\
  option_map snd (TestSuite.run (from_string "") 1000000) =
  Some (TestSuite.mk_result 2 51 0 false).
Proof.
  assert (Hplain : all_plain (from_string "")).
  { unfold all_plain. vm_compute. repeat constructor; discriminate. }
  split; [exact Hplain|].
  destruct (plain_deck_no_trick_no_cycle (from_string "") 1000000 Hplain)
    as (g' & r & Hrun & _).
  rewrite Hrun. cbn [option_map snd].
  assert (E : option_map snd (TestSuite.run (from_string "") 1000000) =
              Some (TestSuite.mk_result 2 51 0 false))
    by (vm_compute; reflexivity).
  rewrite Hrun in E. exact E.
Defined.

(** ** The log of the batch search *)

Lemma StronglySorted_snoc (l : list Z) (x : Z) :
  StronglySorted Z.lt l ->
  Forall (fun y => y < x) l ->
  StronglySorted Z.lt (l ++ [x]).
Proof.
  induction 1 as [|y l Hl IH Hy]; intros Hall; cbn.
  - repeat constructor.
  - apply Forall_cons in Hall as [Hyx Hall].
    constructor; [now apply IH|].
    apply Forall_app. split; [exact Hy | repeat constructor; exact Hyx].
Qed.

(** What the collecting loop keeps true of best and log. *)
Lemma collect_log (h : MainImp.harness) (r : MainImp.result) :
  let ok h :=
    StronglySorted Z.lt (logged_scores h) /\
    Forall (fun l => 0 < MainImp.line_winner l /\
                     MainImp.line_score l <= MainImp.high_score h)
      (MainImp.file h) /\
    ((MainImp.file h = [] /\ MainImp.high_score h = 0) \/
     last (logged_scores h) = Some (MainImp.high_score h)) in
  ok h -> ok (MainImp.collect h r).
Proof.
  cbv zeta. intros (Hsorted & Hall & Hlast).
  destruct (Z.ltb_spec 0 (MainImp.winner r)) as [Hw | Hw].
  - destruct (Z.lt_ge_cases (MainImp.high_score h) (MainImp.cards_played r))
      as [Hlt | Hge].
    + rewrite collect_improving by auto.
      unfold logged_scores in *. cbn [MainImp.file MainImp.high_score].
      rewrite map_app. cbn [map line_of MainImp.line_score].
      split; [|split].
      * apply StronglySorted_snoc; [exact Hsorted|].
        apply Forall_map. eapply Forall_impl; [exact Hall|].
        cbn. intros l [_ Hl]. lia.
      * apply Forall_app. split.
        -- eapply Forall_impl; [exact Hall|]. cbn. intros l [Hl1 Hl2]. lia.
        -- repeat constructor; cbn; lia.
      * right. apply last_snoc.
    + rewrite collect_not_improving by lia. auto.
  - rewrite collect_not_improving by lia. auto.
Qed.

(** X16.  The log of a batch is a strictly rising list of records: each
    line has a higher score than the one before and names a winner, the
    last line carries the final high score (the high score is 0 when no
    line was written), at most one line is written per result, and every
    result is counted as completed. *)
Theorem log_is_rising (rs : list MainImp.result) :
  let h := MainImp.collect_all rs in
  StronglySorted Z.lt (logged_scores h) /\
  Forall (fun l => 0 < MainImp.line_winner l) (MainImp.file h) /\
  ((MainImp.file h = [] /\ MainImp.high_score h = 0) \/
   last (logged_scores h) = Some (MainImp.high_score h)) /\
  (length (MainImp.file h) <= length rs)%nat /\
  MainImp.games_completed h = Z.of_nat (length rs).
Proof.
  cbv zeta. unfold MainImp.collect_all.
  assert (Hgen : forall h0,
             (StronglySorted Z.lt (logged_scores h0) /\
              Forall (fun l => 0 < MainImp.line_winner l /\
                               MainImp.line_score l <= MainImp.high_score h0)
                (MainImp.file h0) /\
              ((MainImp.file h0 = [] /\ MainImp.high_score h0 = 0) \/
               last (logged_scores h0) = Some (MainImp.high_score h0))) ->
             let h := fold_left MainImp.collect rs h0 in
             (StronglySorted Z.lt (logged_scores h) /\
              Forall (fun l => 0 < MainImp.line_winner l /\
                               MainImp.line_score l <= MainImp.high_score h)
                (MainImp.file h) /\
              ((MainImp.file h = [] /\ MainImp.high_score h = 0) \/
               last (logged_scores h) = Some (MainImp.high_score h))) /\
             (length (MainImp.file h) <= length (MainImp.file h0) + length rs)%nat).
  { induction rs as [|r rs IH]; intros h0 Hok; cbn [fold_left length].
    - split; [exact Hok | lia].
    - destruct (IH (MainImp.collect h0 r) (collect_log h0 r Hok)) as [Hok' Hlen].
      split; [exact Hok'|].
      assert (length (MainImp.file (MainImp.collect h0 r)) <=
              S (length (MainImp.file h0)))%nat.
      { unfold MainImp.collect. destruct (MainImp.improves _ r); cbn;
          rewrite ?length_app; cbn; lia. }
      lia. }
  destruct (Hgen MainImp.harness_init) as [(Hsorted & Hall & Hlast) Hlen].
  { split; [constructor|]. split; [constructor|]. left. split; reflexivity. }
  rewrite fold_collect_games_completed.
  split; [exact Hsorted|]. split.
  - eapply Forall_impl; [exact Hall|]. cbn. intros l [Hl _]. exact Hl.
  - split; [exact Hlast|]. split; [exact Hlen | cbn; lia].
Qed.

(** ** The first variant *)

(** Case analysis on who is active, the hand and the tests of
    [Simple.turn]. *)
Ltac simple_turn_cases g :=
  destruct g as [dk [i1 h1 m1] [i2 h2 m2] over tr tot fa rem pl []];
  [ destruct h1 as [|card rest] | destruct h2 as [|card rest] ];
  unfold Simple.turn; cbn;
  repeat match goal with
         | |- context [if ?b then _ else _] => destruct b eqn:?; cbn
         end.

Lemma simple_turn_all_cards (g : Simple.game) :
  Permutation (simple_all_cards (Simple.turn g)) (simple_all_cards g).
Proof.
  simple_turn_cases g; unfold simple_all_cards, Simple.switch_player; cbn;
    repeat match goal with
           | |- context [if ?b then _ else _] => destruct b eqn:?; cbn
           end;
    solve_Permutation.
Qed.

Lemma simple_play_loop_all_cards (fuel : nat) (g g' : Simple.game) :
  Simple.play_loop fuel g = Some g' ->
  Permutation (simple_all_cards g') (simple_all_cards g).
Proof.
  revert g. induction fuel as [|fuel IH]; intros g; cbn [Simple.play_loop];
    destruct (Simple.game_over g); try discriminate;
    try (now intros [= <-]).
  intros H. apply IH in H. now rewrite simple_turn_all_cards in H.
Qed.

(** X17.  The first variant keeps the cards too: after any number of calls
    of its [turn], and when its [play] returns, hands and pile together
    hold the cards of the shuffled deck. *)
Theorem simple_cards_are_permuted (shuffled : deck) :
  (forall n : nat,
      Permutation (simple_all_cards (Nat.iter n Simple.turn (Simple.start shuffled)))
        (cards shuffled)) /\
  (forall (fuel : nat) (g' : Simple.game) (res : Z * Z),
      Simple.play fuel (Simple.start shuffled) = Some (g', res) ->
      Permutation (simple_all_cards g') (cards shuffled)).
Proof.
  assert (Hstart : simple_all_cards (Simple.start shuffled) = cards shuffled).
  { unfold simple_all_cards. cbn. now rewrite app_nil_r, take_drop. }
  split.
  - induction n as [|n IH].
    + change (Nat.iter 0 Simple.turn (Simple.start shuffled))
        with (Simple.start shuffled). now rewrite Hstart.
    + now rewrite Nat.iter_succ, simple_turn_all_cards.
  - intros fuel g' res. unfold Simple.play.
    destruct (Simple.play_loop fuel _) as [g1|] eqn:Hloop; [|discriminate].
    intros [= <- _]. apply simple_play_loop_all_cards in Hloop.
    now rewrite Hstart in Hloop.
Qed.

Lemma simple_cards_are_permuted_witness :
  exists g' res,
    Simple.play 100 (Simple.start deck_recur) = Some (g', res) /\
    Permutation (simple_all_cards g') (cards deck_recur).
Proof.
  destruct (Simple.play 100 (Simple.start deck_recur)) as [[g' res]|] eqn:Hplay.
  - exists g', res. split; [reflexivity|].
    apply (proj2 (simple_cards_are_permuted deck_recur) 100%nat g' res Hplay).
  - vm_compute in Hplay. discriminate Hplay.
Defined.

(** [game_over] is set by a call that finds the active hand empty, and by
    no other; that call changes nothing else. *)
Lemma simple_turn_game_over (g : Simple.game) :
  Simple.game_over g = false ->
  Simple.game_over (Simple.turn g) = true ->
  Simple.cards (Simple.active g) = [] /\
  Simple.cards (Simple.active (Simple.turn g)) = [] /\
  Simple.cards_played_total (Simple.turn g) = Simple.cards_played_total g.
Proof.
  simple_turn_cases g; unfold Simple.switch_player; cbn;
    repeat match goal with
           | |- context [if ?b then _ else _] => destruct b eqn:?; cbn
           end;
    intros H1 H2; try congruence; auto.
Qed.

Lemma simple_play_loop_end (fuel : nat) (g g' : Simple.game) :
  Simple.play_loop fuel g = Some g' ->
  Simple.game_over g = false ->
  Simple.game_over g' = true /\ Simple.cards (Simple.active g') = [].
Proof.
  revert g. induction fuel as [|fuel IH]; intros g; cbn [Simple.play_loop].
  - destruct (Simple.game_over g); [|discriminate]. intros _ H. discriminate H.
  - destruct (Simple.game_over g) eqn:Hover; [intros _ H; discriminate H|].
    intros H _.
    destruct (Simple.game_over (Simple.turn g)) eqn:Hover'.
    + assert (g' = Simple.turn g) as ->.
      { destruct fuel; cbn [Simple.play_loop] in H; rewrite Hover' in H;
          now injection H. }
      split; [exact Hover'|].
      apply (simple_turn_game_over g Hover Hover').
    + now apply IH in H.
Qed.

(** X18.  When [play] of the first variant returns, the game is marked as
    over and the active player is the one whose hand is empty: the id that
    [main] writes to the log after the trick count is the id of the player
    who ran out of cards. *)
Theorem simple_play_ends_on_empty_hand
    (shuffled : deck) (fuel : nat) (g' : Simple.game) (res : Z * Z) :
  Simple.play fuel (Simple.start shuffled) = Some (g', res) ->
  Simple.game_over g' = true /\
  Simple.cards (Simple.active g') = [] /\
  res = (Simple.cards_played_total g', Simple.tricks g').
Proof.
  unfold Simple.play.
  destruct (Simple.play_loop fuel _) as [g1|] eqn:Hloop; [|discriminate].
  intros [= <- <-].
  destruct (simple_play_loop_end _ _ _ Hloop eq_refl) as [Hover Hempty].
  auto.
Qed.

Lemma simple_play_ends_on_empty_hand_witness :
  exists g',
    Simple.play 100 (Simple.start deck_A) = Some (g', (53, 1)) /\
    Simple.active_player g' = ref_p2 /\
    Simple.cards (Simple.p2 g') = [].
Proof.
  destruct (Simple.play 100 (Simple.start deck_A)) as [[g' res]|] eqn:Hplay.
  - destruct (simple_play_ends_on_empty_hand deck_A 100 g' res Hplay)
      as (_ & Hempty & _).
    assert (E : option_map
                  (fun out => (snd out, Simple.active_player (fst out)))
                  (Simple.play 100 (Simple.start deck_A)) =
                Some ((53, 1), ref_p2)) by (vm_compute; reflexivity).
    rewrite Hplay in E. cbn [option_map fst snd] in E. injection E as -> Hact.
    exists g'. split; [reflexivity|]. split; [exact Hact|].
    unfold Simple.active in Hempty. now rewrite Hact in Hempty.
  - vm_compute in Hplay. discriminate Hplay.
Defined.

(** X19.  While a penalty of more than one card is being paid, the
    variants differ in who plays next.  In test-suite.cpp and main-imp.cpp
    a plain card that leaves the count above 0 passes the turn to the other
    player; in the first variant the same player goes on paying.  Both
    lower the count by one and leave the card on the pile. *)
Theorem penalty_payer_after_a_plain_card :
  (forall (g : game) (card : Z) (rest : list Z),
      hand (active g) = card :: rest ->
      card <= 0 ->
      face_card_active g = true ->
      remaining_penalties g - 1 <> 0 ->
      active_player (turn g) <> active_player g /\
      hand (waiting (turn g)) = rest /\
      remaining_penalties (turn g) = remaining_penalties g - 1 /\
      face_card_active (turn g) = true /\
      pile (turn g) = pile g ++ [card]) /\
  (forall (g : Simple.game) (card : Z) (rest : list Z),
      Simple.cards (Simple.active g) = card :: rest ->
      card <= 0 ->
      Simple.face_card_active g = true ->
      Simple.remaining_turns_for_trick g - 1 <> 0 ->
      Simple.active_player (Simple.turn g) = Simple.active_player g /\
      Simple.cards (Simple.active (Simple.turn g)) = rest /\
      Simple.remaining_turns_for_trick (Simple.turn g) =
        Simple.remaining_turns_for_trick g - 1 /\
      Simple.face_card_active (Simple.turn g) = true /\
      Simple.cards_played (Simple.turn g) = Simple.cards_played g ++ [card]).
Proof.
  split.
  - intros g card rest.
    destruct g as [dk [i1 h1] [i2 h2] tot tr pl rem fa [] lim seen];
      cbn; intros -> Hc -> Hrem; rewrite ?turn_p1, ?turn_p2;
      (destruct (0 <? card) eqn:E; [apply Z.ltb_lt in E; lia|]);
      (destruct (rem - 1 =? 0) eqn:E'; [apply Z.eqb_eq in E'; lia|]);
      cbn; split_all; try reflexivity; discriminate.
  - intros g card rest.
    destruct g as [dk [i1 h1 m1] [i2 h2 m2] over tr tot fa rem pl []];
      cbn; intros -> Hc -> Hrem; unfold Simple.turn; cbn;
      (destruct (0 <? card) eqn:E; [apply Z.ltb_lt in E; lia|]); cbn;
      (destruct (rem - 1 =? 0) eqn:E'; [apply Z.eqb_eq in E'; lia|]);
      cbn; split_all; reflexivity.
Qed.

Lemma penalty_payer_after_a_plain_card_witness :
  (let g := turn (start (new_game (from_string "K") 1000000)) in
   remaining_penalties g = 3 /\ active_player g = ref_p2 /\
   active_player (turn g) <> ref_p2 /\ remaining_penalties (turn g) = 2) /\
  (let g := Simple.turn (Simple.start (from_string "K")) in
   Simple.remaining_turns_for_trick g = 3 /\ Simple.active_player g = ref_p2 /\
   Simple.active_player (Simple.turn g) = ref_p2 /\
   Simple.remaining_turns_for_trick (Simple.turn g) = 2).
Proof.
  destruct penalty_payer_after_a_plain_card as [Hnew Hold].
  split; cbv zeta.
  - destruct (Hnew (turn (start (new_game (from_string "K") 1000000))) 0
                (replicate 25 0))
      as (Hact & _ & Hrem & _);
      [vm_compute; reflexivity | lia | vm_compute; reflexivity
      | vm_compute; discriminate |].
    split; [vm_compute; reflexivity|]. split; [vm_compute; reflexivity|].
    split; [exact Hact|]. rewrite Hrem. vm_compute. reflexivity.
  - destruct (Hold (Simple.turn (Simple.start (from_string "K"))) 0
                (replicate 25 0))
      as (Hact & _ & Hrem & _);
      [vm_compute; reflexivity | lia | vm_compute; reflexivity
      | vm_compute; discriminate |].
    split; [vm_compute; reflexivity|]. split; [vm_compute; reflexivity|].
    split; [exact Hact|]. rewrite Hrem. vm_compute. reflexivity.
Defined.

(** ** Printing decks with cards out of range *)

Lemma rank_of_char_of_any (c : Z) : rank_of_char (char_of_rank c) = as_rank c.
Proof.
  unfold char_of_rank, as_rank.
  destruct (Z.eqb_spec c 1) as [-> | H1]; [reflexivity|].
  destruct (Z.eqb_spec c 2) as [-> | H2]; [reflexivity|].
  destruct (Z.eqb_spec c 3) as [-> | H3]; [reflexivity|].
  destruct (Z.eqb_spec c 4) as [-> | H4]; [reflexivity|].
  destruct (Z.leb_spec 1 c); destruct (Z.leb_spec c 4); cbn; try reflexivity.
  lia.
Qed.

(** X20.  [operator<<] writes one of the five letters for every card, also
    for an [int] that is no rank, which it writes as "-"; so printing a
    deck of 52 cards and parsing the string gives the deck with every card
    outside 1..4 turned into a plain card. *)
Theorem from_string_to_string_any (dk : deck) :
  length (cards dk) = 52%nat ->
  String.length (to_string dk) = 52%nat /\
  Forall deck_letter (list_ascii_of_string (to_string dk)) /\
  from_string (to_string dk) = mk_deck (map as_rank (cards dk)).
Proof.
  intros Hlen. unfold to_string. split; [|split].
  - now rewrite length_string_of_list_ascii, length_map.
  - rewrite list_ascii_of_string_of_list_ascii.
    apply Forall_map, Forall_forall. intros c _. unfold char_of_rank, deck_letter.
    repeat match goal with |- context [if ?b then _ else _] => destruct b end;
      auto 6.
  - assert (E : cards (from_string (string_of_list_ascii (map char_of_rank (cards dk))))
                = map as_rank (cards dk)).
    { rewrite from_string_of_list.
      rewrite take_ge by (rewrite length_map; lia).
      rewrite length_map, Hlen. cbn [Nat.sub replicate].
      rewrite app_nil_r, map_map. apply map_ext. intros c.
      apply rank_of_char_of_any. }
    destruct (from_string _). cbn in E. now subst.
Qed.

Lemma from_string_to_string_any_witness :
  to_string deck_stray = ("-JJJJQQQQKKKKAAAA" ++ to_string (mk_deck (replicate 35 0)))%string /\
  cards (from_string (to_string deck_stray)) =
    0 :: skipn 1 (cards deck_stray).
Proof.
  split; [vm_compute; reflexivity|].
  destruct (from_string_to_string_any deck_stray eq_refl) as (_ & _ & ->).
  vm_compute. reflexivity.
Defined.

(** ** One simulation of the batch search *)

Lemma reachable_tricks_moves (g0 g : game) :
  reachable (start g0) g -> 0 <= 2 * tricks g <= cards_played_total g.
Proof.
  intros H.
  destruct (reachable_two_moves _ _ (start_pile_holds_face g0)
              ltac:(cbn; lia) ltac:(cbn; lia) H).
  lia.
Qed.

(** X21.  [run_game_simulation] always returns.  The deck in its tuple is
    the deck that was dealt, the move count lies between 0 and 10000 with
    at most one trick per two moves, and the winner is -1, 1 or 2, where -1
    stands for a recurring hand pair and for nothing else. *)
Theorem run_game_simulation_result (shuffled : deck) :
  exists (g' : game) (r : MainImp.result),
    MainImp.run_game_simulation shuffled = Some (g', r) /\
    MainImp.game_deck r = shuffled /\
    0 <= 2 * MainImp.tricks_won r <= MainImp.cards_played r /\
    MainImp.cards_played r <= 10000 /\
    (MainImp.winner r = -1 \/ MainImp.winner r = 1 \/ MainImp.winner r = 2) /\
    (MainImp.winner r = -1 <->
     keep_playing g' = true /\ state_of g' ∈ seen_states g').
Proof.
  unfold MainImp.run_game_simulation. rewrite main_imp_start.
  destruct (main_imp_play_returns
              (start (new_game shuffled MainImp.default_max_moves)))
    as (g' & e & Hplay & Hloop).
  exists g', (MainImp.report g' e). split; [exact Hplay|].
  destruct (play_loop_exit _ _ _ _ Hloop) as [Hreach Hexit].
  destruct (play_loop_counters _ _ _ _ Hloop) as (_ & Hmax & Hlim);
    [cbn; lia | cbn; lia |].
  destruct (reachable_deck_and_limit _ _ Hreach) as [Hd _].
  destruct (reachable_ids _ _ Hreach) as [H1 H2].
  pose proof (reachable_tricks_moves _ g' Hreach) as Htr.
  change (id (p1 g') = 1) in H1. change (id (p2 g') = 2) in H2.
  change (d g' = shuffled) in Hd.
  assert (Hid : id (active g') = 1 \/ id (active g') = 2).
  { unfold active. destruct (active_player g'); [left | right]; assumption. }
  assert (Hmoves : cards_played_total g' <= 10000).
  { rewrite Hlim in Hmax.
    change (max_moves (start (new_game shuffled MainImp.default_max_moves)))
      with 10000 in Hmax. lia. }
  destruct e; cbn [MainImp.report MainImp.game_deck MainImp.tricks_won
                     MainImp.cards_played MainImp.winner].
  - split; [exact Hd|]. split; [exact Htr|]. split; [exact Hmoves|].
    split; [tauto|]. split; [lia|]. intros [Hk _]. congruence.
  - split; [exact Hd|]. split; [exact Htr|]. split; [exact Hmoves|].
    split; [tauto|]. split; [intros _; exact Hexit | reflexivity].
Qed.

Lemma run_game_simulation_moves (shuffled : deck) :
  exists (g' : game) (r : MainImp.result),
    MainImp.run_game_simulation shuffled = Some (g', r) /\
    MainImp.cards_played r <= 10000.
Proof.
  unfold MainImp.run_game_simulation. rewrite main_imp_start.
  destruct (main_imp_play_returns
              (start (new_game shuffled MainImp.default_max_moves)))
    as (g' & e & Hplay & Hloop).
  exists g', (MainImp.report g' e). split; [exact Hplay|].
  destruct (play_loop_counters _ _ _ _ Hloop) as (_ & Hmax & Hlim);
    [cbn; lia | cbn; lia |].
  rewrite Hlim in Hmax.
  change (max_moves (start (new_game shuffled MainImp.default_max_moves)))
    with 10000 in Hmax.
  destruct e; cbn [MainImp.report MainImp.cards_played]; lia.
Qed.

Lemma best_recorded_bound (rs : list MainImp.result) (bound : Z) :
  0 <= bound ->
  Forall (fun r => MainImp.cards_played r <= bound) rs ->
  best_recorded rs <= bound.
Proof.
  intros Hb. induction 1 as [|r rs Hr _ IH]; [cbn; lia|].
  rewrite best_recorded_cons. destruct (0 <? MainImp.winner r); lia.
Qed.

(** X22.  The batch search as a whole: whatever decks the shuffles deal,
    the high score that [main] ends with, computed from the tuples that
    [run_game_simulation] returns for them, lies between 0 and the move
    limit 10000, and every run is counted. *)
Theorem batch_high_score_bounded (decks : list deck) (rs : list MainImp.result) :
  Forall2 (fun dk r => option_map snd (MainImp.run_game_simulation dk) = Some r)
    decks rs ->
  0 <= MainImp.high_score (MainImp.collect_all rs) <= 10000 /\
  MainImp.games_completed (MainImp.collect_all rs) = Z.of_nat (length decks).
Proof.
  intros Hruns.
  assert (Hbound : Forall (fun r => MainImp.cards_played r <= 10000) rs).
  { induction Hruns as [|dk r decks rs Hr _ IH]; constructor; [|exact IH].
    destruct (run_game_simulation_moves dk) as (g' & r' & Hrun & Hle).
    rewrite Hrun in Hr. cbn in Hr. injection Hr as <-. exact Hle. }
  unfold MainImp.collect_all.
  rewrite fold_collect_high_score by (cbn; lia).
  rewrite fold_collect_games_completed.
  change (MainImp.high_score MainImp.harness_init) with 0.
  pose proof (best_recorded_nonneg rs).
  pose proof (best_recorded_bound rs 10000 ltac:(lia) Hbound).
  split; [lia|]. rewrite (Forall2_length _ _ _ Hruns). cbn. lia.
Qed.

(** ** Every valid deck can be dealt *)

Lemma length_positions_from (r : Z) (cs : list Z) (i : nat) :
  length (positions_from r cs i) = count_occ Z.eq_dec cs r.
Proof.
  revert i. induction cs as [|c cs IH]; intros i; cbn; [reflexivity|].
  destruct (Z.eq_dec c r); cbn; now rewrite IH.
Qed.

Lemma elem_of_positions_from (r : Z) (cs : list Z) (i p : nat) :
  p ∈ positions_from r cs i <->
  (i <= p)%nat /\ cs !! (p - i)%nat = Some r.
Proof.
  revert i. induction cs as [|c cs IH]; intros i; cbn [positions_from].
  - split; [intros H; inversion H | intros [_ H]; discriminate H].
  - assert (Hstep : p ∈ positions_from r cs (S i) <->
                    (i < p)%nat /\ (c :: cs) !! (p - i)%nat = Some r).
    { rewrite IH. split.
      - intros [Hle Hp]. split; [lia|].
        replace (p - i)%nat with (S (p - S i)) by lia. exact Hp.
      - intros [Hlt Hp]. split; [lia|].
        replace (p - i)%nat with (S (p - S i)) in Hp by lia. exact Hp. }
    destruct (Z.eq_dec c r) as [-> | Hne].
    + rewrite elem_of_cons, Hstep. split.
      * intros [-> | [Hlt Hp]]; [|split; [lia | exact Hp]].
        split; [lia|]. now rewrite Nat.sub_diag.
      * intros [Hle Hp]. destruct (decide (p = i)) as [-> | Hpi]; [now left|].
        right. split; [lia | exact Hp].
    + rewrite Hstep. split.
      * intros [Hlt Hp]. split; [lia | exact Hp].
      * intros [Hle Hp]. split; [|exact Hp].
        destruct (decide (p = i)) as [-> | Hpi]; [|lia].
        rewrite Nat.sub_diag in Hp. cbn in Hp. congruence.
Qed.

Lemma NoDup_positions_from (r : Z) (cs : list Z) (i : nat) :
  NoDup (positions_from r cs i).
Proof.
  revert i. induction cs as [|c cs IH]; intros i; cbn [positions_from];
    [constructor|].
  destruct (Z.eq_dec c r); [|apply IH].
  apply NoDup_cons. split; [|apply IH].
  rewrite elem_of_positions_from. lia.
Qed.

Lemma length_write_all (card : Z) (ps : list nat) (cs : list Z) :
  length (write_all card cs ps) = length cs.
Proof.
  unfold write_all. revert cs. induction ps as [|p ps IH]; intros cs; cbn;
    [reflexivity|].
  now rewrite IH, length_insert.
Qed.

Lemma lookup_write_all (card : Z) (ps : list nat) (cs : list Z) (i : nat) :
  (i < length cs)%nat ->
  write_all card cs ps !! i = if decide (i ∈ ps) then Some card else cs !! i.
Proof.
  unfold write_all. revert cs. induction ps as [|p ps IH]; intros cs Hi; cbn.
  - destruct (decide (i ∈ [])) as [H | _]; [inversion H | reflexivity].
  - rewrite IH by (now rewrite length_insert).
    destruct (decide (i ∈ ps)) as [Hin | Hnin].
    + rewrite decide_True by (now right). reflexivity.
    + destruct (decide (i = p)) as [-> | Hne].
      * rewrite decide_True by (now left).
        now rewrite list_lookup_insert_eq.
      * rewrite decide_False by (rewrite elem_of_cons; tauto).
        now rewrite list_lookup_insert_ne.
Qed.

(** Draws that all hit empty slots, each slot once, are taken one after
    the other. *)
Lemma place_n_fresh (card : Z) (ps rest : list nat) (cs : list Z) :
  card <> 0 ->
  NoDup ps ->
  (forall p, p ∈ ps -> cs !! p = Some 0) ->
  place_n (length ps) card (cs, ps ++ rest) = Some (write_all card cs ps, rest).
Proof.
  intros Hcard. revert cs. induction ps as [|p ps IH]; intros cs Hnd Hzero.
  - reflexivity.
  - apply NoDup_cons in Hnd as [Hp Hnd].
    cbn [length place_n]. unfold place. cbn [fst snd app pick_empty].
    rewrite (Hzero p) by (now left). cbn.
    rewrite IH; [reflexivity | exact Hnd |].
    intros q Hq. rewrite list_lookup_insert_ne by (intros ->; contradiction).
    apply Hzero. now right.
Qed.

Lemma elem_of_positions (r : Z) (cs : list Z) (p : nat) :
  p ∈ positions_from r cs 0 <-> cs !! p = Some r.
Proof.
  rewrite elem_of_positions_from, Nat.sub_0_r. split; [now intros [_ H] | intros H].
  split; [lia | exact H].
Qed.

(** Writing rank [r] at the positions it has in [target]. *)
Lemma lookup_write_positions (cs target : list Z) (r : Z) (i : nat) :
  length cs = length target ->
  write_all r cs (positions_from r target 0) !! i =
  if decide (target !! i = Some r) then Some r else cs !! i.
Proof.
  intros Hlen. destruct (Nat.lt_ge_cases i (length cs)) as [Hi | Hi].
  - rewrite lookup_write_all by exact Hi.
    destruct (decide (i ∈ positions_from r target 0)) as [Hin | Hnin].
    + apply elem_of_positions in Hin. now rewrite decide_True.
    + rewrite decide_False; [reflexivity|].
      intros H. apply Hnin. now apply elem_of_positions.
  - rewrite (lookup_ge_None_2 (write_all _ _ _)) by (now rewrite length_write_all).
    rewrite decide_False.
    + symmetry. now apply lookup_ge_None_2.
    + rewrite lookup_ge_None_2 by lia. discriminate.
Qed.

(** X23.  [shuffle] can deal every deck that [is_valid] accepts: when the
    generator draws the positions of the deck's Jacks, then those of its
    Queens, Kings and Aces, [shuffle] uses exactly these sixteen draws and
    yields the deck. *)
Theorem every_valid_deck_is_dealt (dk : deck) (rest : list nat) :
  is_valid dk = true ->
  length (draws_for dk) = 16%nat /\
  shuffle (draws_for dk ++ rest) = Some (dk, rest).
Proof.
  intros Hvalid. apply is_valid_iff in Hvalid as (Hlen & Hranks & Hocc).
  destruct dk as [cs]. unfold ranks_ok, occurrences, face_rank in *.
  cbn [cards] in *. unfold draws_for. cbn [cards].
  set (P1 := positions_from 1 cs 0). set (P2 := positions_from 2 cs 0).
  set (P3 := positions_from 3 cs 0). set (P4 := positions_from 4 cs 0).
  assert (L1 : length P1 = 4%nat)
    by (subst P1; rewrite length_positions_from; apply Hocc; lia).
  assert (L2 : length P2 = 4%nat)
    by (subst P2; rewrite length_positions_from; apply Hocc; lia).
  assert (L3 : length P3 = 4%nat)
    by (subst P3; rewrite length_positions_from; apply Hocc; lia).
  assert (L4 : length P4 = 4%nat)
    by (subst P4; rewrite length_positions_from; apply Hocc; lia).
  split; [rewrite !length_app; lia|].
  set (cs0 := replicate 52 (0 : Z)).
  set (cs1 := write_all 1 cs0 P1). set (cs2 := write_all 2 cs1 P2).
  set (cs3 := write_all 3 cs2 P3). set (cs4 := write_all 4 cs3 P4).
  assert (H0 : length cs0 = length cs) by (subst cs0; now rewrite length_replicate).
  assert (H1 : length cs1 = length cs) by (subst cs1; now rewrite length_write_all).
  assert (H2 : length cs2 = length cs) by (subst cs2; now rewrite length_write_all).
  assert (H3 : length cs3 = length cs) by (subst cs3; now rewrite length_write_all).
  assert (Z0 : forall p r, cs !! p = Some r -> cs0 !! p = Some 0).
  { intros p r Hp. subst cs0. apply lookup_replicate_2.
    apply lookup_lt_Some in Hp. lia. }
  assert (S1 : place_n 4 1 (cs0, P1 ++ (P2 ++ P3 ++ P4 ++ rest)) =
               Some (cs1, P2 ++ P3 ++ P4 ++ rest)).
  { rewrite <- L1. apply place_n_fresh; [lia | apply NoDup_positions_from|].
    intros p Hp. apply elem_of_positions in Hp. eauto. }
  assert (S2 : place_n 4 2 (cs1, P2 ++ (P3 ++ P4 ++ rest)) =
               Some (cs2, P3 ++ P4 ++ rest)).
  { rewrite <- L2. apply place_n_fresh; [lia | apply NoDup_positions_from|].
    intros p Hp. apply elem_of_positions in Hp. subst cs1 P1.
    rewrite lookup_write_positions by exact H0.
    rewrite decide_False by congruence. eauto. }
  assert (S3 : place_n 4 3 (cs2, P3 ++ (P4 ++ rest)) = Some (cs3, P4 ++ rest)).
  { rewrite <- L3. apply place_n_fresh; [lia | apply NoDup_positions_from|].
    intros p Hp. apply elem_of_positions in Hp. subst cs2 P2 cs1 P1.
    rewrite lookup_write_positions by exact H1.
    rewrite decide_False by congruence.
    rewrite lookup_write_positions by exact H0.
    rewrite decide_False by congruence. eauto. }
  assert (S4 : place_n 4 4 (cs3, P4 ++ rest) = Some (cs4, rest)).
  { rewrite <- L4. apply place_n_fresh; [lia | apply NoDup_positions_from|].
    intros p Hp. apply elem_of_positions in Hp. subst cs3 P3 cs2 P2 cs1 P1.
    rewrite lookup_write_positions by exact H2.
    rewrite decide_False by congruence.
    rewrite lookup_write_positions by exact H1.
    rewrite decide_False by congruence.
    rewrite lookup_write_positions by exact H0.
    rewrite decide_False by congruence. eauto. }
  unfold shuffle. cbn [fold_left]. change (replicate (Z.to_nat size) 0) with cs0.
  rewrite <- !app_assoc, S1, S2, S3, S4. do 3 f_equal.
  apply list_eq. intros i. subst cs4 P4 cs3 P3 cs2 P2 cs1 P1.
  rewrite lookup_write_positions by exact H3.
  rewrite lookup_write_positions by exact H2.
  rewrite lookup_write_positions by exact H1.
  rewrite lookup_write_positions by exact H0.
  destruct (cs !! i) as [c|] eqn:Hc.
  - repeat case_decide; try congruence.
    rewrite (Z0 i c Hc). f_equal.
    assert (0 <= c <= 4).
    { rewrite Forall_forall in Hranks. apply Hranks.
      eapply list_elem_of_lookup_2. exact Hc. }
    assert (c <> 1 /\ c <> 2 /\ c <> 3 /\ c <> 4) by (split_all; congruence).
    lia.
  - repeat case_decide; try congruence.
    subst cs0. apply lookup_ge_None_2. apply lookup_ge_None_1 in Hc.
    rewrite length_replicate. lia.
Qed.

Lemma every_valid_deck_is_dealt_witness :
  draws_for deck_recur =
    [1; 18; 22; 34; 7; 8; 10; 49; 11; 13; 32; 40; 21; 35; 47; 51]%nat /\
  shuffle (draws_for deck_recur ++ [3%nat]) = Some (deck_recur, [3%nat]).
Proof.
  split; [vm_compute; reflexivity|].
  apply (every_valid_deck_is_dealt deck_recur [3%nat]). vm_compute. reflexivity.
Defined.

Lemma batch_high_score_bounded_witness :
  MainImp.high_score
    (MainImp.collect_all [cycled_result; MainImp.mk_result 2 52 1 deck_A]) = 52 /\
  0 <= MainImp.high_score
         (MainImp.collect_all [cycled_result; MainImp.mk_result 2 52 1 deck_A])
    <= 10000.
Proof.
  split; [vm_compute; reflexivity|].
  apply (batch_high_score_bounded [deck_recur; deck_A]).
  repeat constructor; vm_compute; reflexivity.
Defined.

(** ** The loop of the first variant's [main] *)

Lemma simple_turn_players (g : Simple.game) :
  Simple.id (Simple.p1 (Simple.turn g)) = Simple.id (Simple.p1 g) /\
  Simple.played_moves (Simple.p1 (Simple.turn g)) = Simple.played_moves (Simple.p1 g) /\
  Simple.id (Simple.p2 (Simple.turn g)) = Simple.id (Simple.p2 g) /\
  Simple.played_moves (Simple.p2 (Simple.turn g)) = Simple.played_moves (Simple.p2 g).
Proof.
  simple_turn_cases g; unfold Simple.switch_player; cbn;
    repeat match goal with
           | |- context [if ?b then _ else _] => destruct b eqn:?; cbn
           end;
    split_all; reflexivity.
Qed.

Lemma simple_play_loop_players (fuel : nat) (g g' : Simple.game) :
  Simple.play_loop fuel g = Some g' ->
  Simple.id (Simple.p1 g') = Simple.id (Simple.p1 g) /\
  Simple.played_moves (Simple.p1 g') = Simple.played_moves (Simple.p1 g) /\
  Simple.id (Simple.p2 g') = Simple.id (Simple.p2 g) /\
  Simple.played_moves (Simple.p2 g') = Simple.played_moves (Simple.p2 g).
Proof.
  revert g. induction fuel as [|fuel IH]; intros g; cbn [Simple.play_loop];
    destruct (Simple.game_over g); try discriminate;
    try (intros [= <-]; split_all; reflexivity).
  intros H. apply IH in H as (H1 & H2 & H3 & H4).
  destruct (simple_turn_players g) as (T1 & T2 & T3 & T4).
  split_all; congruence.
Qed.

(** X24.  The loop of the first variant's [main] plays every game from a
    clean state: [reset] followed by [start] on a finished game gives
    exactly the state of a fresh game on the new deck.  Without [reset]
    the game would still be marked as over, and [play] would return at
    once with the old counters. *)
Theorem simple_reset_then_start
    (first next : deck) (fuel : nat) (g' : Simple.game) (res : Z * Z) :
  Simple.play fuel (Simple.start first) = Some (g', res) ->
  Simple.start_on next (Simple.reset g') = Simple.start next /\
  forall fuel' : nat,
    Simple.play fuel' (Simple.start_on next g') =
    Some (Simple.start_on next g', res).
Proof.
  unfold Simple.play.
  destruct (Simple.play_loop fuel _) as [g1|] eqn:Hloop; [|discriminate].
  intros [= <- <-].
  destruct (simple_play_loop_players _ _ _ Hloop) as (H1 & H2 & H3 & H4).
  destruct (simple_play_loop_end _ _ _ Hloop eq_refl) as [Hover _].
  split.
  - destruct g1 as [dk [i1 h1 m1] [i2 h2 m2] over tr tot fa rem pl act].
    cbn in H1, H2, H3, H4. subst. reflexivity.
  - intros fuel'.
    assert (Hover' : Simple.game_over (Simple.start_on next g1) = true)
      by exact Hover.
    destruct fuel'; cbn [Simple.play_loop]; rewrite Hover'; reflexivity.
Qed.

Lemma simple_reset_then_start_witness :
  exists g' res,
    Simple.play 100 (Simple.start deck_A) = Some (g', res) /\
    Simple.start_on deck_recur (Simple.reset g') = Simple.start deck_recur /\
    Simple.play 0 (Simple.start_on deck_recur g') =
    Some (Simple.start_on deck_recur g', res).
Proof.
  destruct (Simple.play 100 (Simple.start deck_A)) as [[g' res]|] eqn:Hplay.
  - exists g', res. split; [reflexivity|].
    destruct (simple_reset_then_start deck_A deck_recur 100 g' res Hplay)
      as [Hfresh Hstale].
    split; [exact Hfresh | apply Hstale].
  - vm_compute in Hplay. discriminate Hplay.
Defined.

(** ** Sample runs for the properties of [play] *)

Lemma play_move_count_witness :
  exists (g' : game) (r : TestSuite.result),
    TestSuite.run deck_A 10 = Some (g', r) /\
    TestSuite.classify r = TestSuite.limit_reached /\
    TestSuite.moves_played r = 10.
Proof.
  destruct (play_move_count deck_A 10) as (g' & r & Hrun & _ & _ & Hlimit).
  exists g', r. split; [exact Hrun|].
  assert (E : option_map (fun out => TestSuite.classify (snd out))
                (TestSuite.run deck_A 10) = Some TestSuite.limit_reached)
    by (vm_compute; reflexivity).
  rewrite Hrun in E. cbn [option_map snd] in E. injection E as Hclass.
  split; [exact Hclass | exact (Hlimit Hclass)].
Defined.

Lemma cycled_means_hand_pair_recurred_witness :
  exists (g' : game) (r : TestSuite.result) (i : nat),
    TestSuite.run deck_recur 1000000 = Some (g', r) /\
    TestSuite.cycled r = true /\
    (i < 56)%nat /\
    state_of (turns i (start (new_game deck_recur 1000000))) = state_of g'.
Proof.
  destruct (cycled_means_hand_pair_recurred deck_recur 1000000)
    as (g' & r & m & Hrun & Hm & Hstate & _ & Hcycled).
  assert (E : option_map
                (fun out => (TestSuite.cycled (snd out),
                             TestSuite.moves_played (snd out)))
                (TestSuite.run deck_recur 1000000) = Some (true, 56))
    by (vm_compute; reflexivity).
  rewrite Hrun in E. cbn [option_map snd] in E. injection E as Hc Hmoves.
  destruct (proj1 Hcycled Hc) as (_ & i & Hi & Hrec).
  exists g', r, i. split; [exact Hrun|]. split; [exact Hc|].
  split; [lia|]. now rewrite Hstate.
Defined.
